(** * Ravestate context: registry, signal index and run loop

    A shallow embedding of [modules/ravestate/context.py].  The methods of
    [Context] mutate the object and the process-wide logger and may raise;
    they are embedded as computations in a state-and-exception monad over a
    [World] made of the context object and the log. *)

From stdpp Require Import gmap strings list fin_maps countable.

Open Scope string_scope.

(** ** Signals and trigger expressions *)

(** [constraint.Signal]: the context uses signals as dictionary keys and
    set members that are looked up through freshly built objects
    ([s(prop.fullname() + signalname)]), so a signal is identified by its
    name. *)
Definition Signal : Type := string.

(** [constraint.s]: build the signal of a name. *)
Definition s (name : string) : Signal := name.

(** Modelled from the spec: the module [ravestate.constraint] is not part of
    the sources.  A trigger expression is a tagged tree with the variants
    [Leaf(signal)], [And(children)] and [Or(children)]. *)
#[warnings="-register-all"]
Inductive Constraint : Type :=
  | Leaf (sig : Signal)
  | And (children : list Constraint)
  | Or (children : list Constraint).

(** Induction principle that reaches the children of a node. *)
Lemma Constraint_ind' (P : Constraint → Prop) :
  (∀ sig, P (Leaf sig)) →
  (∀ cs, Forall P cs → P (And cs)) →
  (∀ cs, Forall P cs → P (Or cs)) →
  ∀ e, P e.
Proof.
  intros HL HA HO. fix IH 1. intros [sig|cs|cs].
  - apply HL.
  - apply HA. induction cs as [|c cs IHcs]; constructor; [apply IH | exact IHcs].
  - apply HO. induction cs as [|c cs IHcs]; constructor; [apply IH | exact IHcs].
Qed.

Fixpoint Constraint_to_tree (e : Constraint) : gen_tree Signal :=
  match e with
  | Leaf sig => GenLeaf sig
  | And cs => GenNode 0 (map Constraint_to_tree cs)
  | Or cs => GenNode 1 (map Constraint_to_tree cs)
  end.

Fixpoint Constraint_of_tree (t : gen_tree Signal) : Constraint :=
  match t with
  | GenLeaf sig => Leaf sig
  | GenNode 0 ts => And (map Constraint_of_tree ts)
  | GenNode _ ts => Or (map Constraint_of_tree ts)
  end.

Lemma Constraint_of_to_tree e : Constraint_of_tree (Constraint_to_tree e) = e.
Proof.
  induction e as [sig|cs IH|cs IH] using Constraint_ind'; simpl; [done | |];
    f_equal; induction IH as [|c cs Hc _ IHcs]; simpl; [done | | done |];
    by rewrite Hc, IHcs.
Qed.

#[global] Instance Constraint_eq_dec : EqDecision Constraint.
Proof.
  intros e1 e2.
  destruct (decide (Constraint_to_tree e1 = Constraint_to_tree e2)) as [H|H].
  - left. by rewrite <- (Constraint_of_to_tree e1), H, Constraint_of_to_tree.
  - right. by intros ->.
Defined.

#[global] Instance Constraint_countable : Countable Constraint :=
  inj_countable' Constraint_to_tree Constraint_of_tree Constraint_of_to_tree.

(** The signals of an expression, in order of first occurrence.  (The
    method returns a collection without repetitions; the embedding fixes
    its iteration order.) *)
Fixpoint leaves (e : Constraint) : list Signal :=
  match e with
  | Leaf sig => [sig]
  | And cs => concat (map leaves cs)
  | Or cs => concat (map leaves cs)
  end.

Definition Constraint_get_all_signals (e : Constraint) : list Signal :=
  remove_dups (leaves e).

(** ** Properties and states *)

(** Modelled from the spec: the class [PropertyBase] is not part of the
    sources.  A property is a named resource that belongs to a module and
    carries read/write capability flags; its full name is
    [<module>:<name>]. *)
Record PropertyBase : Type := {
  prop_name : string;
  parent_path : string;
  allow_read : bool;
  allow_write : bool
}.

Definition fullname (p : PropertyBase) : string :=
  parent_path p ++ ":" ++ prop_name p.

#[global] Instance PropertyBase_eq_dec : EqDecision PropertyBase.
Proof. solve_decision. Defined.

(** The [triggers] attribute of a state: a signal expression, or, in the
    old implementation that [add_state] still recognises, a plain string. *)
Inductive Triggers : Type :=
  | TriggerStr (name : string)
  | TriggerExpr (e : Constraint).

#[global] Instance Triggers_eq_dec : EqDecision Triggers.
Proof. solve_decision. Defined.

#[global] Instance Triggers_countable : Countable Triggers :=
  inj_countable'
    (λ t, match t with TriggerStr n => inl n | TriggerExpr e => inr e end)
    (λ x, match x with inl n => TriggerStr n | inr e => TriggerExpr e end)
    (λ t, match t with TriggerStr _ => eq_refl | TriggerExpr _ => eq_refl end).

(** Modelled from the spec: the class [State] is not part of the sources.
    The context reads the attributes [name], [read_props], [write_props],
    [triggers] and [signal] (the signal the state emits, or [None]).  A
    value of this record stands for the state object. *)
Record State : Type := {
  name : string;
  read_props : list string;
  write_props : list string;
  triggers : Triggers;
  signal : option Signal
}.

#[global] Instance State_eq_dec : EqDecision State.
Proof. solve_decision. Defined.

#[global] Instance State_countable : Countable State :=
  inj_countable'
    (λ st, (name st, read_props st, write_props st, triggers st, signal st))
    (λ '(n, r, w, t, sg),
       {| name := n; read_props := r; write_props := w;
          triggers := t; signal := sg |})
    (λ st, match st with Build_State _ _ _ _ _ => eq_refl end).

(** ** Python objects the context stores and tests *)

(** [threading.Event]: a flag, read with [is_set()] and set with [set()]. *)
Record Event : Type := { is_set : bool }.

Definition Event_new : Event := {| is_set := false |}.
Definition Event_set (e : Event) : Event := {| is_set := true |}.

(** [threading.Thread] with target [_run_private]: created, then started,
    then exited once the target has returned. *)
Inductive Thread : Type := ThreadCreated | ThreadStarted | ThreadExited.

#[global] Instance Thread_eq_dec : EqDecision Thread.
Proof. solve_decision. Defined.

(** The objects whose truth value or equality the context's code asks
    for. *)
Inductive PyObject : Type :=
  | PyNone
  | PyStr (v : string)
  | PySignal (sig : Signal)
  | PyProp (p : PropertyBase)
  | PyEvent (e : Event)
  | PyThread (t : Thread).

(** Truth value testing: [None] and the empty string are false; signals,
    properties, events and threads define neither [__bool__] nor
    [__len__], so every such object is true. *)
Definition truthy (o : PyObject) : bool :=
  match o with
  | PyNone => false
  | PyStr v => negb (String.eqb v EmptyString)
  | PySignal _ | PyProp _ | PyEvent _ | PyThread _ => true
  end.

(** [==] between the objects the context compares: strings compare by
    value and signals by name; property objects compare by identity;
    objects of different classes are unequal.  (Events and threads are
    never compared.) *)
Definition py_eq (a b : PyObject) : bool :=
  match a, b with
  | PyNone, PyNone => true
  | PyStr x, PyStr y => String.eqb x y
  | PySignal x, PySignal y => String.eqb x y
  | PyProp p, PyProp q => bool_decide (p = q)
  | _, _ => false
  end.

(** [x in view] for a sequence or a dictionary view. *)
Definition py_in (x : PyObject) (l : list PyObject) : bool :=
  existsb (py_eq x) l.

(** ** The context object *)

(** A [defaultdict(set)] from ages to sets of states. *)
Abbreviation AgeBuckets := (gmap Z (gset State)).

(** The attribute [_activations_per_signal_age].  The class declares it as
    [Dict[Signal, Dict[int, Set[State]]]]; the constructor stores the
    typing object [Dict[Tuple[Signal, int], Set[State]]] itself, which is
    not a dictionary. *)
Inductive SignalIndex : Type :=
  | TypingAlias
  | IndexDict (d : gmap Signal AgeBuckets).

(** The attributes of a [Context] that the signal processing uses.
    [_run_task] is [None] while the attribute has not been assigned,
    [Some None] when it holds Python's [None] and [Some (Some t)] when it
    holds a thread.  The configuration attributes belong to the external
    configuration store and are left out. *)
Record Context : Type := {
  _properties : gmap string PropertyBase;
  _states : gset State;
  _signals : gset Signal;
  _activations_per_signal_age : SignalIndex;
  _run_task : option (option Thread);
  _shutdown_flag : Event
}.

Definition default_signal_names : list string :=
  [":startup"; ":shutdown"; ":idle"].
Definition default_property_signal_names : list string :=
  [":changed"; ":pushed"; ":popped"; ":deleted"].

(** [Context.__init__], lines 56 to 61: the object as the constructor
    leaves it before it applies the configuration overrides and loads the
    modules it was given.  No statement assigns [_run_task]. *)
Definition Context_init : Context :=
  {| _properties := ∅;
     _states := ∅;
     _signals := ∅;
     _activations_per_signal_age := TypingAlias;
     _run_task := None;
     _shutdown_flag := Event_new |}.

(** ** The logger *)

(** One constructor per call of [logger.error] in the methods below, with
    the value its message is formatted from. *)
Inductive LogRecord : Type :=
  | ErrStartTwice
  | ErrAddStateTwice (state_name : string)
  | ErrUnknownProperty (prop : string)
  | ErrStringTrigger (trig : string)
  | ErrUnknownSignal (sig : Signal)
  | ErrRemoveUnknownState (state_name : string)
  | ErrAddPropTwice (prop : string)
  | ErrUnknownKey (key : string).

(** ** Computations *)

(** The world a method runs in: the context it is called on, the records
    logged so far, and a counter of the loop bodies [_run_private] has
    executed. *)
Record World : Type := {
  self : Context;
  logged : list LogRecord;
  ticks : nat
}.

Inductive Exn : Type := AttributeError | KeyError | TypeError | RuntimeError.

(** A call returns a value, raises (the mutations made before the raise
    stay), or never comes back. *)
Inductive Outcome (A : Type) : Type :=
  | Returned (a : A) (w : World)
  | Raised (e : Exn) (w : World)
  | Blocked.
Arguments Returned {A} a w.
Arguments Raised {A} e w.
Arguments Blocked {A}.

Definition Py (A : Type) : Type := World → Outcome A.

Definition ret {A} (a : A) : Py A := λ w, Returned a w.
Definition bind {A B} (m : Py A) (k : A → Py B) : Py B :=
  λ w, match m w with
       | Returned a w' => k a w'
       | Raised e w' => Raised e w'
       | Blocked => Blocked
       end.
Definition raise {A} (e : Exn) : Py A := λ w, Raised e w.

Declare Scope py_scope.
Delimit Scope py_scope with py.
Notation "x ←ₚ m ; k" := (bind m (λ x, k))
  (at level 100, m at next level, k at level 200, right associativity,
   format "'[v' x  ←ₚ  m ; '/' k ']'") : py_scope.
Notation "m ;ₚ k" := (bind m (λ _, k))
  (at level 100, k at level 200, right associativity,
   format "'[v' m  ;ₚ '/' k ']'") : py_scope.
Open Scope py_scope.

Definition get_self : Py Context := λ w, Returned (self w) w.
Definition modify_self (f : Context → Context) : Py unit :=
  λ w, Returned tt {| self := f (self w); logged := logged w; ticks := ticks w |}.
Definition log (r : LogRecord) : Py unit :=
  λ w, Returned tt {| self := self w; logged := logged w ++ [r]; ticks := ticks w |}.
Definition tick : Py unit :=
  λ w, Returned tt {| self := self w; logged := logged w; ticks := S (ticks w) |}.

(** [for x in l: body]. *)
Fixpoint for_each {A} (l : list A) (body : A → Py unit) : Py unit :=
  match l with
  | [] => ret tt
  | x :: l' => body x ;ₚ for_each l' body
  end.

(** [with self._lock: body].  A call enters with the lock free, the body
    takes no second lock, and the statement releases the lock on return
    and on raise alike; in the sequential embedding it is the body. *)
Definition with_lock {A} (body : Py A) : Py A := body.

(** ** Attribute and container accesses *)

Definition set_properties (m : gmap string PropertyBase) (c : Context) : Context :=
  {| _properties := m; _states := _states c; _signals := _signals c;
     _activations_per_signal_age := _activations_per_signal_age c;
     _run_task := _run_task c; _shutdown_flag := _shutdown_flag c |}.
Definition set_states (X : gset State) (c : Context) : Context :=
  {| _properties := _properties c; _states := X; _signals := _signals c;
     _activations_per_signal_age := _activations_per_signal_age c;
     _run_task := _run_task c; _shutdown_flag := _shutdown_flag c |}.
Definition set_signals (X : gset Signal) (c : Context) : Context :=
  {| _properties := _properties c; _states := _states c; _signals := X;
     _activations_per_signal_age := _activations_per_signal_age c;
     _run_task := _run_task c; _shutdown_flag := _shutdown_flag c |}.
Definition set_index (i : SignalIndex) (c : Context) : Context :=
  {| _properties := _properties c; _states := _states c; _signals := _signals c;
     _activations_per_signal_age := i;
     _run_task := _run_task c; _shutdown_flag := _shutdown_flag c |}.
Definition set_run_task (t : option (option Thread)) (c : Context) : Context :=
  {| _properties := _properties c; _states := _states c; _signals := _signals c;
     _activations_per_signal_age := _activations_per_signal_age c;
     _run_task := t; _shutdown_flag := _shutdown_flag c |}.
Definition set_shutdown_flag (e : Event) (c : Context) : Context :=
  {| _properties := _properties c; _states := _states c; _signals := _signals c;
     _activations_per_signal_age := _activations_per_signal_age c;
     _run_task := _run_task c; _shutdown_flag := e |}.

(** [self._run_task]: reading an attribute that was never assigned raises
    [AttributeError]. *)
Definition getattr_run_task : Py (option Thread) :=
  c ←ₚ get_self;
  match _run_task c with
  | None => raise AttributeError
  | Some o => ret o
  end.

Definition py_of_run_task (o : option Thread) : PyObject :=
  match o with None => PyNone | Some t => PyThread t end.

(** [signal in self._activations_per_signal_age].  The typing object has
    no [__contains__] and no [__iter__], and its [__getitem__] refuses a
    subscript: the test raises [TypeError]. *)
Definition index_contains (sig : Signal) : Py bool :=
  c ←ₚ get_self;
  match _activations_per_signal_age c with
  | TypingAlias => raise TypeError
  | IndexDict d => ret (bool_decide (sig ∈ dom d))
  end.

(** [self._activations_per_signal_age[signal] = defaultdict(set)]. *)
Definition index_setitem (sig : Signal) (v : AgeBuckets) : Py unit :=
  c ←ₚ get_self;
  match _activations_per_signal_age c with
  | TypingAlias => raise TypeError
  | IndexDict d => modify_self (set_index (IndexDict (<[sig := v]> d)))
  end.

(** [self._activations_per_signal_age[signal]]. *)
Definition index_getitem (sig : Signal) : Py AgeBuckets :=
  c ←ₚ get_self;
  match _activations_per_signal_age c with
  | TypingAlias => raise TypeError
  | IndexDict d =>
      match d !! sig with
      | None => raise KeyError
      | Some b => ret b
      end
  end.

(** [self._activations_per_signal_age.pop(signal)], without a default. *)
Definition index_pop (sig : Signal) : Py unit :=
  c ←ₚ get_self;
  match _activations_per_signal_age c with
  | TypingAlias => raise TypeError
  | IndexDict d =>
      match d !! sig with
      | None => raise KeyError
      | Some _ => modify_self (set_index (IndexDict (delete sig d)))
      end
  end.

(** [buckets[age].add(st)] on a [defaultdict(set)]: a missing bucket is
    created empty first. *)
Definition buckets_add (age : Z) (st : State) (b : AgeBuckets) : AgeBuckets :=
  <[age := {[st]} ∪ default ∅ (b !! age)]> b.

(** [self._activations_per_signal_age[signal][0].add(st)]: the bucket
    dictionary is mutated in place. *)
Definition index_add0 (sig : Signal) (st : State) : Py unit :=
  b ←ₚ index_getitem sig;
  index_setitem sig (buckets_add 0 st b).

(** [buckets.remove(st)]: a [defaultdict] is a [dict], and [dict] has no
    attribute [remove]. *)
Definition buckets_remove (b : AgeBuckets) (st : State) : Py unit :=
  raise AttributeError.

(** [st.triggers.get_all_signals()]: a string has no such method. *)
Definition get_all_signals (t : Triggers) : Py (list Signal) :=
  match t with
  | TriggerStr _ => raise AttributeError
  | TriggerExpr e => ret (Constraint_get_all_signals e)
  end.

(** [if st.signal: body]: [None] is false, a signal object is true. *)
Definition if_signal (o : option Signal) (body : Signal → Py unit) : Py unit :=
  match o with
  | None => ret tt
  | Some sig => if truthy (PySignal sig) then body sig else ret tt
  end.

(** ** The methods of [Context] *)

(** [Context.emit].  The arguments [parents] and [wipe] are not used. *)
Definition emit (sig : Signal) : Py unit :=
  with_lock (modify_self (λ c, set_signals ({[sig]} ∪ _signals c) c)).

(** [Thread(target=self._run_private)] and [Thread.start]. *)
Definition Thread_start : Py unit :=
  o ←ₚ getattr_run_task;
  match o with
  | None => raise AttributeError
  | Some ThreadCreated => modify_self (set_run_task (Some (Some ThreadStarted)))
  | Some _ => raise RuntimeError
  end.

(** [Context.run]. *)
Definition run : Py unit :=
  o ←ₚ getattr_run_task;
  if truthy (py_of_run_task o) then
    log ErrStartTwice
  else
    modify_self (set_run_task (Some (Some ThreadCreated))) ;ₚ
    Thread_start ;ₚ
    emit (s ":startup").

(** [Context.shutting_down]. *)
Definition shutting_down : Py bool :=
  c ←ₚ get_self;
  ret (is_set (_shutdown_flag c)).

(** [Context._run_private]: the loop tests the truth value of the event
    object.  Every execution of the body is counted in [ticks]; the body
    itself is [pass].  With the fuel used up the call has not returned. *)
Fixpoint _run_private (fuel : nat) : Py unit :=
  match fuel with
  | 0 => λ _, Blocked
  | S fuel' =>
      c ←ₚ get_self;
      if negb (truthy (PyEvent (_shutdown_flag c))) then
        tick ;ₚ _run_private fuel'
      else ret tt
  end.

(** [self._run_task.join()]: the caller waits until the target of the
    thread has returned.  The embedding is sequential and runs the target
    when the caller waits for it. *)
Definition Thread_join (fuel : nat) : Py unit :=
  o ←ₚ getattr_run_task;
  match o with
  | None => raise AttributeError
  | Some ThreadCreated => raise RuntimeError
  | Some ThreadStarted =>
      _run_private fuel ;ₚ
      modify_self (set_run_task (Some (Some ThreadExited)))
  | Some ThreadExited => ret tt
  end.

(** [Context.shutdown]. *)
Definition shutdown (fuel : nat) : Py unit :=
  modify_self (λ c, set_shutdown_flag (Event_set (_shutdown_flag c)) c) ;ₚ
  emit (s ":shutdown") ;ₚ
  Thread_join fuel.

(** [Context.add_state]. *)
Definition add_state (st : State) : Py unit :=
  c ←ₚ get_self;
  if bool_decide (st ∈ _states c) then
    log (ErrAddStateTwice (name st))
  else
    for_each (read_props st ++ write_props st) (λ prop,
      c ←ₚ get_self;
      if negb (bool_decide (prop ∈ dom (_properties c))) then
        log (ErrUnknownProperty prop)
      else ret tt) ;ₚ
    with_lock (
      if_signal (signal st) (λ sig, index_setitem sig ∅) ;ₚ
      match triggers st with
      | TriggerStr trig => log (ErrStringTrigger trig)
      | TriggerExpr _ => ret tt
      end ;ₚ
      sigs ←ₚ get_all_signals (triggers st);
      for_each sigs (λ sig,
        known ←ₚ index_contains sig;
        if known then index_add0 sig st
        else log (ErrUnknownSignal sig)) ;ₚ
      modify_self (λ c, set_states ({[st]} ∪ _states c) c)).

(** [Context.rm_state]. *)
Definition rm_state (st : State) : Py unit :=
  c ←ₚ get_self;
  if negb (bool_decide (st ∈ _states c)) then
    log (ErrRemoveUnknownState (name st))
  else
    with_lock (
      if_signal (signal st) (λ sig, index_pop sig) ;ₚ
      sigs ←ₚ get_all_signals (triggers st);
      for_each sigs (λ sig,
        b ←ₚ index_getitem sig;
        buckets_remove b st) ;ₚ
      modify_self (λ c, set_states (_states c ∖ {[st]}) c)).

(** [self._properties.values()]. *)
Definition dict_values {V} (m : gmap string V) : list V :=
  (map_to_list m).*2.

(** [Context.add_prop]: the guard looks the full name up among the
    property objects. *)
Definition add_prop (prop : PropertyBase) : Py unit :=
  c ←ₚ get_self;
  if py_in (PyStr (fullname prop)) (PyProp <$> dict_values (_properties c)) then
    log (ErrAddPropTwice (prop_name prop))
  else
    modify_self (λ c, set_properties (<[fullname prop := prop]> (_properties c)) c) ;ₚ
    with_lock (
      for_each default_property_signal_names (λ signalname,
        index_setitem (s (fullname prop ++ signalname)) ∅)).

(** [Context.get_prop]. *)
Definition get_prop (key : string) : Py (option PropertyBase) :=
  c ←ₚ get_self;
  if negb (bool_decide (key ∈ dom (_properties c))) then
    log (ErrUnknownKey key) ;ₚ
    ret None
  else
    ret (_properties c !! key).

(** ** Reading outcomes *)

(** The world a call leaves behind, whether it returned or raised. *)
Definition world_after {A} (o : Outcome A) : option World :=
  match o with
  | Returned _ w => Some w
  | Raised _ w => Some w
  | Blocked => None
  end.

Definition with_logged (l : list LogRecord) (w : World) : World :=
  {| self := self w; logged := l; ticks := ticks w |}.
Definition with_self (c : Context) (w : World) : World :=
  {| self := c; logged := logged w; ticks := ticks w |}.

(** A world around a context: nothing logged, no loop body executed. *)
Definition world_of (c : Context) : World :=
  {| self := c; logged := []; ticks := 0 |}.

(** ** Activations and specificity *)

(** Modelled from the spec: the modules [ravestate.spike] and
    [ravestate.activation] are not part of the sources.  A spike is an
    occurrence of a signal, with an age and the resources it offers; an
    activation pairs a trigger expression with the spikes acquired so
    far. *)
Record Spike : Type := {
  spike_sig : Signal;
  spike_age : Z;
  consumable_resources : list string
}.

Record Activation : Type := {
  constraint : Constraint;
  spikes : list Spike
}.

(** The signals an activation has matched. *)
Definition matched (a : Activation) : gset Signal :=
  list_to_set (spike_sig <$> spikes a).

(** Modelled from the spec: evaluation of a trigger expression against
    the matched signals. *)
Fixpoint satisfied (m : gset Signal) (e : Constraint) : bool :=
  match e with
  | Leaf sig => bool_decide (sig ∈ m)
  | And cs => forallb (satisfied m) cs
  | Or cs => existsb (satisfied m) cs
  end.

(** Modelled from the spec: each satisfied [Leaf] contributes a fixed
    unit; an [And] node's contribution is the sum of its children's; an
    [Or] node's contribution is the maximum among satisfied children. *)
Fixpoint specificity_of (m : gset Signal) (e : Constraint) : nat :=
  match e with
  | Leaf sig => if bool_decide (sig ∈ m) then 1 else 0
  | And cs => foldr (λ c acc, specificity_of m c + acc) 0 cs
  | Or cs =>
      foldr (λ c acc, if satisfied m c then specificity_of m c `max` acc else acc)
        0 cs
  end.

Definition Activation_specificity (a : Activation) : nat :=
  specificity_of (matched a) (constraint a).

(** Modelled from the spec: an activation extends its spike set with a
    spike whose signal appears unmatched in the trigger expression, and
    says whether it did. *)
Definition Activation_acquire (spike : Spike) (a : Activation) : bool * Activation :=
  if bool_decide (spike_sig spike ∈ leaves (constraint a))
     && negb (bool_decide (spike_sig spike ∈ matched a))
  then (true, {| constraint := constraint a; spikes := spike :: spikes a |})
  else (false, a).

(** ** Sequences of calls

    The methods of the public interface whose bodies act on the context
    object.  ([add_module] and [conf] go through the module registry and
    the configuration store, which are external; [add_module] reaches the
    context through [add_prop] and [add_state] only.) *)
Inductive Call : Type :=
  | CallEmit (sig : Signal)
  | CallRun
  | CallShuttingDown
  | CallShutdown (fuel : nat)
  | CallAddState (st : State)
  | CallRmState (st : State)
  | CallAddProp (prop : PropertyBase)
  | CallGetProp (key : string).

Definition call (c : Call) : Py unit :=
  match c with
  | CallEmit sig => emit sig
  | CallRun => run
  | CallShuttingDown => shutting_down ;ₚ ret tt
  | CallShutdown fuel => shutdown fuel
  | CallAddState st => add_state st
  | CallRmState st => rm_state st
  | CallAddProp prop => add_prop prop
  | CallGetProp key => get_prop key ;ₚ ret tt
  end.

(** A client that makes the calls one after the other and goes on after
    a call that raised; [None] when a call does not come back. *)
Fixpoint calls (l : list Call) (w : World) : option World :=
  match l with
  | [] => Some w
  | c :: l' =>
      match world_after (call c w) with
      | Some w' => calls l' w'
      | None => None
      end
  end.

(** ** Scenario objects

    The property [bar:foo], states over it, and contexts to run the
    scenarios of the specification on. *)
Module Scenario.

Definition foo : PropertyBase :=
  {| prop_name := "foo"; parent_path := "bar";
     allow_read := true; allow_write := true |}.

(** A second property object with the same full name. *)
Definition foo_again : PropertyBase :=
  {| prop_name := "foo"; parent_path := "bar";
     allow_read := true; allow_write := false |}.

(** Scenario 1: triggered by [bar:foo:changed], no other dependency. *)
Definition S1 : State :=
  {| name := "S1"; read_props := []; write_props := [];
     triggers := TriggerExpr (Leaf (s "bar:foo:changed"));
     signal := None |}.

(** Scenario 3: requires the property [baz:qux], which is not
    registered, and a signal of it. *)
Definition S3 : State :=
  {| name := "S3"; read_props := ["baz:qux"]; write_props := [];
     triggers := TriggerExpr (Leaf (s "baz:qux:changed"));
     signal := None |}.

(** A context whose signal index is the dictionary the class declares,
    with nothing registered. *)
Definition empty_context : Context :=
  {| _properties := ∅;
     _states := ∅;
     _signals := ∅;
     _activations_per_signal_age := IndexDict ∅;
     _run_task := None;
     _shutdown_flag := Event_new |}.

(** The same context with [_run_task] holding [None], the value the
    guard of [run] tests for. *)
Definition idle_context : Context := set_run_task (Some None) empty_context.

(** The context [run] makes of it: the loop thread started, [:startup]
    pending. *)
Definition running_context : Context :=
  set_signals ({[ s ":startup" ]} ∪ ∅)
    (set_run_task (Some (Some ThreadStarted)) idle_context).

(** Activations on [And(bar:foo:changed, bar:foo:pushed)]: one that
    has matched the first signal, one that has matched both. *)
Definition changed_and_pushed : Constraint :=
  And [Leaf (s "bar:foo:changed"); Leaf (s "bar:foo:pushed")].
Definition spike_changed : Spike :=
  {| spike_sig := s "bar:foo:changed"; spike_age := 0;
     consumable_resources := ["bar:foo"] |}.
Definition spike_pushed : Spike :=
  {| spike_sig := s "bar:foo:pushed"; spike_age := 0;
     consumable_resources := ["bar:foo"] |}.
Definition matched_changed : Activation :=
  {| constraint := changed_and_pushed; spikes := [spike_changed] |}.
Definition matched_both : Activation :=
  {| constraint := changed_and_pushed; spikes := [spike_pushed; spike_changed] |}.

(** Calls on the context the constructor builds, with a [shutdown] in
    their middle, and the world they end in: [add_prop] and [run] raise
    on the way, [get_prop] logs. *)
Definition calls_around_shutdown : list Call :=
  [CallAddProp foo; CallShutdown 1; CallEmit (s ":idle"); CallRun;
   CallGetProp "baz:qux"].

Definition after_calls_around_shutdown : World :=
  {| self :=
       {| _properties := {[ "bar:foo" := foo ]};
          _states := ∅;
          _signals := {[ s ":idle"; s ":shutdown" ]};
          _activations_per_signal_age := TypingAlias;
          _run_task := None;
          _shutdown_flag := {| is_set := true |} |};
     logged := [ErrUnknownKey "baz:qux"];
     ticks := 0 |}.

End Scenario.

(** ** Worlds and sets the statements speak of *)

(** What the loop over [default_property_signal_names] leaves in a
    dictionary index for the property with full name [fn]. *)
Definition materialized (fn : string) (d : gmap Signal AgeBuckets) :
    gmap Signal AgeBuckets :=
  foldl (λ d signalname, <[s (fn ++ signalname) := ∅]> d) d
    default_property_signal_names.

(** The world [shutdown] leaves when the loop thread was started. *)
Definition stopped (w : World) : World :=
  with_self
    (set_run_task (Some (Some ThreadExited))
       (set_signals ({[s ":shutdown"]} ∪ _signals (self w))
          (set_shutdown_flag (Event_set (_shutdown_flag (self w))) (self w)))) w.

(** The shutdown flag of the context is set. *)
Definition flag_set (w : World) : Prop :=
  is_set (_shutdown_flag (self w)) = true.

(** Scenario 1 up to the removal: [bar:foo] is registered, [S1] is added,
    and removing [S1] raises with [S1] still registered and indexed. *)
Definition scenario1_index : gmap Signal AgeBuckets :=
  <[s "bar:foo:changed" := {[ 0%Z := {[ Scenario.S1 ]} ]}]>
    (materialized "bar:foo" ∅).

Definition scenario1_registered : World :=
  world_of
    (set_states {[ Scenario.S1 ]}
       (set_index (IndexDict scenario1_index)
          (set_properties {[ "bar:foo" := Scenario.foo ]} Scenario.empty_context))).

(** Scenario 1 after a second property object was added under the name
    [bar:foo]. *)
Definition scenario1_overwritten : World :=
  world_of
    (set_index (IndexDict (materialized "bar:foo" scenario1_index))
       (set_properties
          (<["bar:foo" := Scenario.foo_again]> {[ "bar:foo" := Scenario.foo ]})
          (self scenario1_registered))).

(** The index after the state's own signal has been given a fresh entry. *)
Definition own_signal_entry (st : State) (d : gmap Signal AgeBuckets) :
    gmap Signal AgeBuckets :=
  match signal st with
  | Some sig => <[sig := ∅]> d
  | None => d
  end.

(** The index after the state has been put into age bucket 0 of [sig],
    when the index knows [sig]. *)
Definition index_state (st : State) (d : gmap Signal AgeBuckets) (sig : Signal) :
    gmap Signal AgeBuckets :=
  match d !! sig with
  | Some b => <[sig := buckets_add 0 st b]> d
  | None => d
  end.

(** The errors [add_state] logs for a state that is not yet registered. *)
Definition dependency_errors (c : Context) (d : gmap Signal AgeBuckets)
    (st : State) (e : Constraint) : list LogRecord :=
  ((ErrUnknownProperty <$>
      filter (λ p, p ∉ dom (_properties c)) (read_props st ++ write_props st))
   ++ (ErrUnknownSignal <$>
         filter (λ sig, sig ∉ dom (own_signal_entry st d))
           (Constraint_get_all_signals e)))%list.

(** The signals a signal index knows. *)
Definition index_keys (i : SignalIndex) : gset Signal :=
  match i with
  | TypingAlias => ∅
  | IndexDict d => dom d
  end.

(** A state declares a read or write property that is not registered, or
    a trigger signal that the index does not know. *)
Definition missing_dependency (c : Context) (st : State) : Prop :=
  (∃ p, p ∈ (read_props st ++ write_props st)%list ∧ p ∉ dom (_properties c))
  ∨ (∃ e sig, triggers st = TriggerExpr e
       ∧ sig ∈ Constraint_get_all_signals e
       ∧ sig ∉ index_keys (_activations_per_signal_age c)).

(** The fail-fast policy as the specification states it: [add_state] on
    a state with a missing dependency logs, and leaves the registered
    states and the signal index as they were. *)
Definition add_state_rejects_missing_dependency : Prop :=
  ∀ w st, missing_dependency (self w) st →
    ∃ w', world_after (add_state st w) = Some w'
      ∧ logged w' ≠ logged w
      ∧ _states (self w') = _states (self w)
      ∧ _activations_per_signal_age (self w') = _activations_per_signal_age (self w).


(** ** Module registration *)

(** Modelled from the spec: the class [ravestate.module.Module] is not
    part of the sources.  The context reads its [name], its properties
    and its states. *)
Record RavestateModule : Type := {
  module_name : string;
  module_props : list PropertyBase;
  module_states : list State
}.

(** [logger.info]: the world keeps the records of [logger.error] only. *)
Definition log_info (module_name : string) : Py unit := ret tt.

Section ModuleRegistration.

(** [self.config.add_conf(mod)]: the configuration store is external. *)
Variable config_add_conf : RavestateModule → Py unit.

(** [Context._module_registration_callback]. *)
Definition _module_registration_callback (module : RavestateModule) : Py unit :=
  config_add_conf module ;ₚ
  for_each (module_props module) (λ prop, add_prop prop) ;ₚ
  for_each (module_states module) (λ st, add_state st) ;ₚ
  log_info (module_name module).

(** [registry.has_module], [registry.get_module] and
    [registry.import_module]: the module registry is external. *)
Variable registry_has_module : string → bool.
Variable registry_get_module : string → RavestateModule.
Variable registry_import_module :
  string → (RavestateModule → Py unit) → Py unit.

(** [Context.add_module]. *)
Definition add_module (name : string) : Py unit :=
  if registry_has_module name then
    _module_registration_callback (registry_get_module name)
  else
    registry_import_module name _module_registration_callback.

End ModuleRegistration.

(** ** Relations between the context before and after a call *)

(** The pending signals are kept. *)
Definition signals_kept (c c' : Context) : Prop :=
  _signals c ⊆ _signals c'.

(** The registered property names are kept. *)
Definition names_kept (c c' : Context) : Prop :=
  dom (_properties c) ⊆ dom (_properties c').

(** The context is as the constructor left its run task and its signal
    index: no run task assigned, the typing object as index. *)
Definition as_constructed (c : Context) : Prop :=
  _run_task c = None ∧ _activations_per_signal_age c = TypingAlias.

Definition stays_as_constructed (c c' : Context) : Prop :=
  as_constructed c → as_constructed c'.

(** The property registry is the same. *)
Definition same_properties (c c' : Context) : Prop :=
  _properties c' = _properties c.

(** The registered states are the same. *)
Definition same_states (c c' : Context) : Prop :=
  _states c' = _states c.

(** ** Further states for the scenarios *)

(** A state of the old implementation: its trigger is a string; it emits
    a signal of its own. *)
Definition S_old : State :=
  {| name := "S_old"; read_props := []; write_props := [];
     triggers := TriggerStr "bar:foo:changed";
     signal := Some (s "core:done") |}.

(** A state that triggers on [bar:foo:pushed] and emits
    [bar:foo:changed]. *)
Definition S_done : State :=
  {| name := "S_done"; read_props := []; write_props := [];
     triggers := TriggerExpr (Leaf (s "bar:foo:pushed"));
     signal := Some (s "bar:foo:changed") |}.

(** A state without trigger signals that emits [core:done]. *)
Definition S_idle : State :=
  {| name := "S_idle"; read_props := []; write_props := [];
     triggers := TriggerExpr (And []);
     signal := Some (s "core:done") |}.


(** Scenario 1 after [rm_state] of [S1] (which raises), an [emit] of
    [:idle] and a [shutdown] (which raises for want of a run task). *)
Definition scenario1_shut : World :=
  with_self
    (set_signals ({[ s ":shutdown" ]} ∪ ({[ s ":idle" ]} ∪ ∅))
       (set_shutdown_flag (Event_set Event_new) (self scenario1_registered)))
    scenario1_registered.

(** Scenario 1 after a second [add_prop] for [bar:foo], an [emit] of
    [:idle] and a [run] (which raises for want of a run task). *)
Definition scenario1_idle : World :=
  with_self
    (set_signals ({[ s ":idle" ]} ∪ ∅) (self scenario1_overwritten))
    scenario1_overwritten.
Open Scope nat_scope.

Lemma World_eta w : {| self := self w; logged := logged w; ticks := ticks w |} = w.
Proof. by destruct w. Qed.

Lemma bind_Returned {A B} (m : Py A) (k : A → Py B) w a w' :
  m w = Returned a w' → bind m k w = k a w'.
Proof. unfold bind. by intros ->. Qed.

(** Settle a decidable proposition over concrete data by evaluation. *)
Ltac decide_by_evaluation :=
  first [ refine (bool_decide_unpack _ _); vm_compute; exact I
        | apply (bool_decide_eq_false_1 _); vm_compute; reflexivity ].

Ltac py_unfold :=
  unfold bind, ret, raise, get_self, modify_self, log, tick, with_lock,
    with_logged, with_self in *.

(** ** Pending signals: [emit] *)

Lemma emit_eq sig w :
  emit sig w =
  Returned tt (with_self (set_signals ({[sig]} ∪ _signals (self w)) (self w)) w).
Proof. reflexivity. Qed.

Lemma set_signals_twice X Y c : set_signals X (set_signals Y c) = set_signals X c.
Proof. reflexivity. Qed.

Lemma emit_emit sig w : (emit sig ;ₚ emit sig) w = emit sig w.
Proof.
  unfold bind. rewrite !emit_eq. unfold with_self; simpl.
  by rewrite set_signals_twice, (assoc_L (∪)), (idemp_L (∪)).
Qed.

Lemma for_each_emit sig n w :
  for_each (replicate (S n) sig) emit w = emit sig w.
Proof.
  revert w. induction n as [|n IH]; intros w.
  - simpl. unfold bind. by rewrite emit_eq.
  - change (replicate (S (S n)) sig) with (sig :: replicate (S n) sig).
    cbn [for_each]. rewrite <- (emit_emit sig w).
    unfold bind. rewrite emit_eq. apply IH.
Qed.

(** C9: emitting a signal any number of times (at least once) before the
    pending set is processed leaves the same world, and so the same set of
    pending signals, as emitting it once; that set is the old one with
    the signal added. *)
Theorem emit_idempotent (sig : Signal) (w : World) (n : nat) :
  for_each (replicate (S n) sig) emit w = emit sig w
  ∧ (emit sig ;ₚ emit sig) w = emit sig w
  ∧ ∃ w', emit sig w = Returned tt w'
      ∧ _signals (self w') = {[sig]} ∪ _signals (self w).
Proof.
  split; [apply for_each_emit|]. split; [apply emit_emit|].
  eexists. split; [apply emit_eq|]. reflexivity.
Qed.

(** ** Adding states: [add_state] *)

Lemma index_state_dom st d sig : dom (index_state st d sig) = dom d.
Proof.
  unfold index_state. destruct (d !! sig) as [b|] eqn:H; [|done].
  rewrite dom_insert_L. apply elem_of_dom_2 in H.
  apply subseteq_union_1_L. by apply singleton_subseteq_l.
Qed.

Lemma foldl_index_state_dom st sigs d : dom (foldl (index_state st) d sigs) = dom d.
Proof.
  revert d. induction sigs as [|sig sigs IH]; intros d; simpl; [done|].
  by rewrite IH, index_state_dom.
Qed.

(** Once a known signal holds the state in bucket 0, it keeps it. *)
Lemma index_state_holds st d sig sig' b :
  d !! sig = Some b → st ∈ default ∅ (b !! 0%Z) →
  ∃ b', index_state st d sig' !! sig = Some b' ∧ st ∈ default ∅ (b' !! 0%Z).
Proof.
  intros Hb Hst. unfold index_state.
  destruct (d !! sig') as [b1|] eqn:H1; [|eauto].
  destruct (decide (sig' = sig)) as [->|Hne].
  - rewrite lookup_insert_eq. eexists. split; [done|].
    unfold buckets_add. rewrite lookup_insert_eq. simpl. set_solver.
  - rewrite lookup_insert_ne by done. eauto.
Qed.

Lemma foldl_index_state_holds st sigs d sig b :
  d !! sig = Some b → st ∈ default ∅ (b !! 0%Z) →
  ∃ b', foldl (index_state st) d sigs !! sig = Some b' ∧ st ∈ default ∅ (b' !! 0%Z).
Proof.
  revert d b. induction sigs as [|sig' sigs IH]; intros d b Hb Hst; simpl; [eauto|].
  destruct (index_state_holds st d sig sig' b Hb Hst) as (b' & Hb' & Hst').
  by apply (IH _ b').
Qed.

Lemma foldl_index_state_indexes st sigs d sig :
  sig ∈ sigs → sig ∈ dom d →
  ∃ b, foldl (index_state st) d sigs !! sig = Some b ∧ st ∈ default ∅ (b !! 0%Z).
Proof.
  revert d. induction sigs as [|sig' sigs IH]; intros d Hin Hdom; [by inversion Hin|].
  simpl. apply elem_of_cons in Hin as [->|Hin].
  - apply elem_of_dom in Hdom as [b Hb].
    apply (foldl_index_state_holds st sigs _ sig' (buckets_add 0 st b)).
    + unfold index_state. rewrite Hb. apply lookup_insert_eq.
    + unfold buckets_add. rewrite lookup_insert_eq. simpl. set_solver.
  - apply IH; [done|]. by rewrite index_state_dom.
Qed.

(** The loop over the properties a state depends on. *)
Lemma add_state_props_loop props w :
  for_each props (λ prop,
    c ←ₚ get_self;
    if negb (bool_decide (prop ∈ dom (_properties c))) then
      log (ErrUnknownProperty prop)
    else ret tt) w
  = Returned tt
      (with_logged
         (logged w ++
          (ErrUnknownProperty <$> filter (λ p, p ∉ dom (_properties (self w))) props))
         w).
Proof.
  revert w. induction props as [|p props IH]; intros w; simpl.
  - unfold ret, with_logged. by rewrite app_nil_r, World_eta.
  - unfold bind at 1. unfold bind at 1, get_self.
    rewrite filter_cons. destruct (decide (p ∉ dom (_properties (self w)))) as [Hp|Hp].
    + rewrite bool_decide_eq_false_2 by done. simpl. rewrite IH.
      unfold with_logged; simpl. by rewrite <- app_assoc.
    + rewrite bool_decide_eq_true_2 by (by apply dec_stable). simpl.
      unfold ret. by rewrite IH.
Qed.

(** One round of the loop over the trigger signals, on a dictionary
    index. *)
Lemma add_state_signal_step st sig d w :
  _activations_per_signal_age (self w) = IndexDict d →
  (known ←ₚ index_contains sig;
   if known then index_add0 sig st
   else log (ErrUnknownSignal sig)) w
  = Returned tt
      (with_logged
         (logged w ++ (ErrUnknownSignal <$> filter (λ sig, sig ∉ dom d) [sig]))
         (with_self (set_index (IndexDict (index_state st d sig)) (self w)) w)).
Proof.
  destruct w as [[ps sts sgs ix rt fl] lg tk]. simpl. intros ->.
  unfold index_state, index_contains, index_add0, index_getitem, index_setitem.
  py_unfold. simpl. rewrite filter_cons, filter_nil.
  destruct (d !! sig) as [b|] eqn:Hb.
  - rewrite bool_decide_eq_true_2 by (by apply elem_of_dom_2 in Hb).
    rewrite decide_False by (intros H; by apply H, (elem_of_dom_2 _ _ b)).
    simpl. rewrite Hb. simpl. by rewrite app_nil_r.
  - rewrite bool_decide_eq_false_2 by (by apply not_elem_of_dom_2).
    rewrite decide_True by (by apply not_elem_of_dom_2).
    reflexivity.
Qed.

(** The loop over the trigger signals, on a dictionary index. *)
Lemma add_state_signals_loop st sigs d w :
  _activations_per_signal_age (self w) = IndexDict d →
  for_each sigs (λ sig,
    known ←ₚ index_contains sig;
    if known then index_add0 sig st
    else log (ErrUnknownSignal sig)) w
  = Returned tt
      (with_logged
         (logged w ++ (ErrUnknownSignal <$> filter (λ sig, sig ∉ dom d) sigs))
         (with_self
            (set_index (IndexDict (foldl (index_state st) d sigs)) (self w)) w)).
Proof.
  revert d w. induction sigs as [|sig sigs IH]; intros d w Hd.
  - destruct w as [[ps sts sgs ix rt fl] lg tk]. simpl in Hd. subst ix.
    unfold ret, with_logged, with_self; simpl. by rewrite app_nil_r.
  - cbn [for_each foldl].
    erewrite bind_Returned by (by apply add_state_signal_step).
    rewrite (IH (index_state st d sig)) by done.
    rewrite index_state_dom.
    rewrite !filter_cons, filter_nil.
    unfold with_logged, with_self; simpl.
    destruct (decide (sig ∉ dom d)); simpl; by rewrite <- app_assoc.
Qed.

Lemma add_state_own_signal st d w :
  _activations_per_signal_age (self w) = IndexDict d →
  if_signal (signal st) (λ sig, index_setitem sig ∅) w
  = Returned tt (with_self (set_index (IndexDict (own_signal_entry st d)) (self w)) w).
Proof.
  destruct w as [[ps sts sgs ix rt fl] lg tk]. simpl. intros ->.
  unfold if_signal, own_signal_entry. by destruct (signal st).
Qed.

Lemma add_state_eq w st e d :
  st ∉ _states (self w) →
  triggers st = TriggerExpr e →
  _activations_per_signal_age (self w) = IndexDict d →
  add_state st w =
    Returned tt
      (with_logged (logged w ++ dependency_errors (self w) d st e)
         (with_self
            (set_states ({[st]} ∪ _states (self w))
               (set_index
                  (IndexDict
                     (foldl (index_state st) (own_signal_entry st d)
                        (Constraint_get_all_signals e)))
                  (self w))) w)).
Proof.
  intros Hst Ht Hd. unfold add_state, bind at 1, get_self.
  rewrite bool_decide_eq_false_2 by done.
  unfold bind at 1. rewrite add_state_props_loop. unfold with_lock.
  unfold bind at 1. rewrite (add_state_own_signal st d) by done.
  rewrite Ht. unfold bind at 1, ret at 1. unfold get_all_signals.
  unfold bind at 1, ret at 1. unfold bind at 1.
  rewrite (add_state_signals_loop st _ (own_signal_entry st d)) by done.
  unfold modify_self, dependency_errors, with_logged, with_self; simpl.
  by rewrite <- app_assoc.
Qed.

(** C1, as the code has it: on a dictionary index, [add_state] on a state
    that is not yet registered and whose trigger is a signal expression
    logs one error per read or write property that is not registered and
    one per trigger signal that the index does not know, and registers
    the state all the same: the state joins the set of registered states,
    the properties stay as they are, the index keeps its keys (with the
    state's own signal added), and every trigger signal the index knows
    holds the state in age bucket 0. *)
Theorem add_state_logs_and_registers (w : World) (st : State) (e : Constraint)
    (d : gmap Signal AgeBuckets) :
  st ∉ _states (self w) →
  triggers st = TriggerExpr e →
  _activations_per_signal_age (self w) = IndexDict d →
  ∃ w' d',
    add_state st w = Returned tt w'
    ∧ logged w' = (logged w ++ dependency_errors (self w) d st e)%list
    ∧ _states (self w') = {[st]} ∪ _states (self w)
    ∧ _properties (self w') = _properties (self w)
    ∧ _activations_per_signal_age (self w') = IndexDict d'
    ∧ dom d' = dom (own_signal_entry st d)
    ∧ (∀ sig, sig ∈ Constraint_get_all_signals e →
         sig ∈ dom (own_signal_entry st d) →
         ∃ b, d' !! sig = Some b ∧ st ∈ default ∅ (b !! 0%Z)).
Proof.
  intros Hst Ht Hd. eexists _, _. split; [by apply add_state_eq|].
  split; [done|]. split; [done|]. split; [done|]. split; [done|].
  split; [apply foldl_index_state_dom|].
  intros sig Hin Hdom. by apply foldl_index_state_indexes.
Qed.

Lemma add_state_logs_and_registers_witness :
  ∃ w' d',
    add_state Scenario.S3 (world_of Scenario.empty_context) = Returned tt w'
    ∧ logged w' =
        (logged (world_of Scenario.empty_context)
         ++ dependency_errors Scenario.empty_context ∅ Scenario.S3
              (Leaf (s "baz:qux:changed")))%list
    ∧ _states (self w') = {[Scenario.S3]} ∪ _states Scenario.empty_context
    ∧ _properties (self w') = _properties Scenario.empty_context
    ∧ _activations_per_signal_age (self w') = IndexDict d'
    ∧ dom d' = dom (own_signal_entry Scenario.S3 ∅)
    ∧ (∀ sig, sig ∈ Constraint_get_all_signals (Leaf (s "baz:qux:changed")) →
         sig ∈ dom (own_signal_entry Scenario.S3 ∅) →
         ∃ b, d' !! sig = Some b ∧ Scenario.S3 ∈ default ∅ (b !! 0%Z)).
Proof.
  apply (add_state_logs_and_registers (world_of Scenario.empty_context)
           Scenario.S3 (Leaf (s "baz:qux:changed")) ∅).
  - apply not_elem_of_empty.
  - reflexivity.
  - reflexivity.
Defined.

(** Scenario 3: [S3] requires the property [baz:qux], which is not
    registered; [add_state] logs two errors and registers [S3]. *)
Lemma add_state_scenario3 :
  add_state Scenario.S3 (world_of Scenario.empty_context) =
    Returned tt
      (with_logged
         [ErrUnknownProperty "baz:qux"; ErrUnknownSignal (s "baz:qux:changed")]
         (world_of (set_states ({[Scenario.S3]} ∪ ∅) Scenario.empty_context))).
Proof.
  rewrite (add_state_eq _ Scenario.S3 (Leaf (s "baz:qux:changed")) ∅);
    [|apply not_elem_of_empty|reflexivity|reflexivity].
  reflexivity.
Qed.

(** C1 fails as stated: the registration is not rejected. *)
Lemma add_state_does_not_reject : ¬ add_state_rejects_missing_dependency.
Proof.
  intros H.
  destruct (H (world_of Scenario.empty_context) Scenario.S3) as (w' & Hw' & _ & Hs & _).
  - left. exists "baz:qux". split; [by apply list_elem_of_here|].
    simpl. rewrite dom_empty_L. apply not_elem_of_empty.
  - rewrite add_state_scenario3 in Hw'. injection Hw' as <-.
    simpl in Hs. assert (Hin : Scenario.S3 ∈ (∅ : gset State)).
    { rewrite <- Hs. apply elem_of_union_l. by apply elem_of_singleton. }
    by apply not_elem_of_empty in Hin.
Qed.

(** ** The property registry: [add_prop] and [get_prop] *)

(** A string is never found among property objects. *)
Lemma py_in_str_props key (l : list PropertyBase) :
  py_in (PyStr key) (PyProp <$> l) = false.
Proof. induction l as [|p l IH]; [done|]. simpl. exact IH. Qed.

Lemma add_prop_eq prop w :
  add_prop prop w =
  let c := set_properties (<[fullname prop := prop]> (_properties (self w))) (self w) in
  match _activations_per_signal_age (self w) with
  | TypingAlias => Raised TypeError (with_self c w)
  | IndexDict d =>
      Returned tt (with_self (set_index (IndexDict (materialized (fullname prop) d)) c) w)
  end.
Proof.
  unfold add_prop, bind at 1, get_self. rewrite py_in_str_props.
  destruct w as [[ps sts sgs [|d] rt fl] lg tk]; reflexivity.
Qed.

Lemma add_prop_registers prop w :
  ∃ w', world_after (add_prop prop w) = Some w'
    ∧ logged w' = logged w
    ∧ _properties (self w') = <[fullname prop := prop]> (_properties (self w)).
Proof.
  rewrite add_prop_eq. simpl.
  destruct (_activations_per_signal_age (self w)); eexists; (split; [reflexivity|done]).
Qed.

Lemma get_prop_known key p w :
  _properties (self w) !! key = Some p → get_prop key w = Returned (Some p) w.
Proof.
  intros H. unfold get_prop. py_unfold.
  rewrite bool_decide_eq_true_2 by (apply elem_of_dom; eauto).
  simpl. by rewrite H.
Qed.

Lemma get_prop_unknown key w :
  _properties (self w) !! key = None →
  get_prop key w = Returned None (with_logged (logged w ++ [ErrUnknownKey key]) w).
Proof.
  intros H. unfold get_prop. py_unfold.
  rewrite bool_decide_eq_false_2; [done|].
  rewrite elem_of_dom, H. by intros [? ?].
Qed.

(** C8: [get_prop] returns the property object the registry holds under
    the key and leaves the world as it is; for a key the registry does not
    hold it logs an error, returns [None] and changes nothing but the log;
    and right after [add_prop prop], whether that call returned or raised,
    the key [fullname prop] yields [prop]. *)
Theorem get_prop_lookup (w : World) (key : string) :
  (∀ p, _properties (self w) !! key = Some p →
     get_prop key w = Returned (Some p) w)
  ∧ (_properties (self w) !! key = None →
     get_prop key w =
       Returned None (with_logged (logged w ++ [ErrUnknownKey key]) w))
  ∧ (∀ prop w', world_after (add_prop prop w) = Some w' →
     get_prop (fullname prop) w' = Returned (Some prop) w').
Proof.
  split; [|split].
  - intros p. apply get_prop_known.
  - apply get_prop_unknown.
  - intros prop w' Hw'. apply get_prop_known.
    destruct (add_prop_registers prop w) as (w1 & H1 & _ & Hp).
    rewrite Hw' in H1. injection H1 as ->.
    rewrite Hp. apply lookup_insert_eq.
Qed.

Lemma get_prop_lookup_witness :
  get_prop "baz:qux" (world_of Scenario.empty_context) =
    Returned None
      (with_logged [ErrUnknownKey "baz:qux"] (world_of Scenario.empty_context))
  ∧ (add_prop Scenario.foo ;ₚ get_prop "bar:foo") (world_of Scenario.empty_context) =
    Returned (Some Scenario.foo)
      (with_self
         (set_index (IndexDict (materialized "bar:foo" ∅))
            (set_properties {[ "bar:foo" := Scenario.foo ]} Scenario.empty_context))
         (world_of Scenario.empty_context)).
Proof.
  split.
  - apply (proj1 (proj2 (get_prop_lookup (world_of Scenario.empty_context) "baz:qux"))).
    reflexivity.
  - unfold bind at 1. rewrite add_prop_eq. simpl.
    apply (proj2 (proj2 (get_prop_lookup (world_of Scenario.empty_context) "bar:foo"))
             Scenario.foo).
    rewrite add_prop_eq. reflexivity.
Defined.

(** Scenario 1 up to the registration of [S1]. *)
Lemma scenario1_registration :
  (add_prop Scenario.foo ;ₚ add_state Scenario.S1)
    (world_of Scenario.empty_context) = Returned tt scenario1_registered.
Proof.
  unfold bind. rewrite add_prop_eq. simpl.
  rewrite (add_state_eq _ Scenario.S1 (Leaf (s "bar:foo:changed"))
             (materialized "bar:foo" ∅));
    [|apply not_elem_of_empty|reflexivity|reflexivity].
  unfold scenario1_registered, world_of, with_logged, with_self. simpl.
  f_equal.
Qed.

Lemma scenario1_overwriting :
  add_prop Scenario.foo_again scenario1_registered
  = Returned tt scenario1_overwritten.
Proof. rewrite add_prop_eq. reflexivity. Qed.

(** C2: [add_prop] never takes its duplicate branch.  Whatever the
    registry holds, the call logs nothing and binds the full name to the
    new object; adding a second object under the registered name
    [bar:foo] replaces the first and empties the index entries of the
    property's signals, here dropping [S1] from [bar:foo:changed].
    [add_state] on a registered state does log and change nothing else. *)
Theorem add_prop_duplicate_overwrites :
  (∀ w prop, ∃ w',
     world_after (add_prop prop w) = Some w'
     ∧ logged w' = logged w
     ∧ _properties (self w') = <[fullname prop := prop]> (_properties (self w)))
  ∧ ((add_prop Scenario.foo ;ₚ add_state Scenario.S1)
        (world_of Scenario.empty_context) = Returned tt scenario1_registered
     ∧ add_prop Scenario.foo_again scenario1_registered
       = Returned tt scenario1_overwritten
     ∧ fullname Scenario.foo_again = fullname Scenario.foo
     ∧ logged scenario1_overwritten = []
     ∧ _properties (self scenario1_registered) !! "bar:foo" = Some Scenario.foo
     ∧ _properties (self scenario1_overwritten) !! "bar:foo"
       = Some Scenario.foo_again
     ∧ scenario1_index !! s "bar:foo:changed" = Some {[ 0%Z := {[ Scenario.S1 ]} ]}
     ∧ materialized "bar:foo" scenario1_index !! s "bar:foo:changed" = Some ∅)
  ∧ (∀ w st, st ∈ _states (self w) →
       add_state st w =
         Returned tt (with_logged (logged w ++ [ErrAddStateTwice (name st)]) w)).
Proof.
  split; [|split].
  - intros w prop. apply add_prop_registers.
  - split; [apply scenario1_registration|].
    split; [apply scenario1_overwriting|].
    split; [reflexivity|]. split; [reflexivity|].
    split; [apply lookup_singleton_eq|].
    split; [apply lookup_insert_eq|].
    split; [apply lookup_insert_eq|].
    unfold materialized. simpl.
    rewrite !lookup_insert_ne by done. apply lookup_insert_eq.
  - intros w st Hst. unfold add_state. py_unfold.
    by rewrite bool_decide_eq_true_2.
Qed.

(** ** Properties of the world that calls preserve *)

Section Preservation.
Variable P : World → Prop.

(** [m] keeps [P], whether it returns or raises. *)
Definition preserves {A} (m : Py A) : Prop :=
  ∀ w, P w →
    match m w with
    | Returned _ w' | Raised _ w' => P w'
    | Blocked => True
    end.

Lemma preserves_ret {A} (a : A) : preserves (ret a).
Proof. intros w Hw. exact Hw. Qed.

Lemma preserves_raise {A} e : preserves (@raise A e).
Proof. intros w Hw. exact Hw. Qed.

Lemma preserves_get_self : preserves get_self.
Proof. intros w Hw. exact Hw. Qed.

Lemma preserves_bind {A B} (m : Py A) (k : A → Py B) :
  preserves m → (∀ a, preserves (k a)) → preserves (bind m k).
Proof.
  intros Hm Hk w Hw. unfold bind. specialize (Hm w Hw).
  destruct (m w) as [a w'|e w'|]; [by apply Hk|done|done].
Qed.

Lemma preserves_for_each {A} (l : list A) (body : A → Py unit) :
  (∀ x, preserves (body x)) → preserves (for_each l body).
Proof.
  intros Hb. induction l as [|x l IH]; simpl.
  - apply preserves_ret.
  - apply preserves_bind; [apply Hb | intros _; exact IH].
Qed.

Lemma preserves_if {A} (b : bool) (m1 m2 : Py A) :
  preserves m1 → preserves m2 → preserves (if b then m1 else m2).
Proof. by destruct b. Qed.

Lemma preserves_calls l w w' :
  (∀ c, preserves (call c)) → P w → calls l w = Some w' → P w'.
Proof.
  intros Hc. revert w. induction l as [|c l IH]; intros w Hw; simpl.
  - by intros [= <-].
  - specialize (Hc c w Hw).
    destruct (call c w) as [a w1|e w1|]; simpl; [by apply IH|by apply IH|done].
Qed.
End Preservation.

(** ** The run loop: [run], [_run_private], [shutdown] *)

(** C5: [_run_private] returns at once, with no loop body executed,
    whatever the shutdown flag holds: in particular on a context whose
    flag is not set.  The loop condition tests the event object, which is
    true, and not its flag. *)
Theorem run_private_exits_at_once (fuel : nat) (w : World) :
  _run_private (S fuel) w = Returned tt w
  ∧ _run_private (S fuel)
      (world_of (set_run_task (Some (Some ThreadStarted)) Context_init))
    = Returned tt
        (world_of (set_run_task (Some (Some ThreadStarted)) Context_init))
  ∧ is_set (_shutdown_flag (set_run_task (Some (Some ThreadStarted)) Context_init))
    = false.
Proof. repeat split. Qed.

Lemma run_unset w :
  _run_task (self w) = None → run w = Raised AttributeError w.
Proof. intros H. unfold run, getattr_run_task. py_unfold. by rewrite H. Qed.

Lemma run_running w t :
  _run_task (self w) = Some (Some t) →
  run w = Returned tt (with_logged (logged w ++ [ErrStartTwice]) w).
Proof. intros H. unfold run, getattr_run_task. py_unfold. by rewrite H. Qed.

Lemma run_idle w :
  _run_task (self w) = Some None →
  run w =
    Returned tt
      (with_self
         (set_signals ({[s ":startup"]} ∪ _signals (self w))
            (set_run_task (Some (Some ThreadStarted)) (self w))) w).
Proof. intros H. unfold run, getattr_run_task. py_unfold. by rewrite H. Qed.

(** C3: on the context the constructor builds, [run] raises
    [AttributeError] at its guard: no thread is created and [:startup] is
    not emitted.  Where [_run_task] holds a thread, [run] logs an error and
    changes nothing else; where it holds [None], [run] starts the thread
    and emits [:startup]. *)
Theorem run_on_new_context_raises :
  run (world_of Context_init) = Raised AttributeError (world_of Context_init)
  ∧ (∀ w t, _run_task (self w) = Some (Some t) →
       run w = Returned tt (with_logged (logged w ++ [ErrStartTwice]) w))
  ∧ (∀ w, _run_task (self w) = Some None →
       run w =
         Returned tt
           (with_self
              (set_signals ({[s ":startup"]} ∪ _signals (self w))
                 (set_run_task (Some (Some ThreadStarted)) (self w))) w)).
Proof.
  split; [by apply run_unset|]. split; [apply run_running | apply run_idle].
Qed.

Lemma shutdown_started fuel w :
  _run_task (self w) = Some (Some ThreadStarted) →
  shutdown (S fuel) w = Returned tt (stopped w).
Proof.
  intros H. unfold shutdown, Thread_join, getattr_run_task, emit.
  py_unfold. cbn -[union]. rewrite H. reflexivity.
Qed.

Lemma shutdown_exited fuel w :
  _run_task (self w) = Some (Some ThreadExited) →
  shutdown fuel w = Returned tt (stopped w).
Proof.
  destruct w as [[ps sts sgs ix rt fl] lg tk]. simpl. intros ->. reflexivity.
Qed.

Lemma stopped_stopped w : stopped (stopped w) = stopped w.
Proof.
  unfold stopped, with_self; simpl. f_equal.
  unfold set_run_task, set_signals, set_shutdown_flag; simpl. f_equal.
  by rewrite (assoc_L (∪)), (idemp_L (∪)).
Qed.

(** C4: with the loop thread started, [shutdown] returns (for every
    positive fuel): the shutdown flag is set, [:shutdown] is pending and
    the thread has exited.  A second [shutdown] returns as well, whatever
    the fuel, and leaves the world as the first one left it. *)
Theorem shutdown_joins_and_repeats (fuel fuel' : nat) (w : World) :
  _run_task (self w) = Some (Some ThreadStarted) →
  ∃ w1,
    shutdown (S fuel) w = Returned tt w1
    ∧ is_set (_shutdown_flag (self w1)) = true
    ∧ s ":shutdown" ∈ _signals (self w1)
    ∧ _signals (self w1) = {[s ":shutdown"]} ∪ _signals (self w)
    ∧ _run_task (self w1) = Some (Some ThreadExited)
    ∧ shutdown fuel' w1 = Returned tt w1.
Proof.
  intros H. exists (stopped w). split; [by apply shutdown_started|].
  split; [done|]. split; [simpl; set_solver|]. split; [done|]. split; [done|].
  rewrite shutdown_exited by done. by rewrite stopped_stopped.
Qed.

Lemma shutdown_joins_and_repeats_witness :
  run (world_of Scenario.idle_context)
  = Returned tt (world_of Scenario.running_context)
  ∧ ∃ w1,
      shutdown 1 (world_of Scenario.running_context) = Returned tt w1
      ∧ is_set (_shutdown_flag (self w1)) = true
      ∧ s ":shutdown" ∈ _signals (self w1)
      ∧ _signals (self w1) =
          {[s ":shutdown"]} ∪ _signals (self (world_of Scenario.running_context))
      ∧ _run_task (self w1) = Some (Some ThreadExited)
      ∧ shutdown 0 w1 = Returned tt w1.
Proof.
  split; [by rewrite run_idle|].
  apply (shutdown_joins_and_repeats 0 0 (world_of Scenario.running_context)).
  reflexivity.
Defined.

Lemma shutdown_without_run_task fuel w :
  _run_task (self w) = None →
  shutdown fuel w =
    Raised AttributeError
      (with_self
         (set_signals ({[s ":shutdown"]} ∪ _signals (self w))
            (set_shutdown_flag (Event_set (_shutdown_flag (self w))) (self w))) w).
Proof.
  intros H. unfold shutdown, Thread_join, getattr_run_task, emit.
  py_unfold. cbn -[union]. by rewrite H.
Qed.

(** ** The shutdown flag over the lifetime of a context *)

Section FlagPreserved.
Local Abbreviation keeps := (preserves flag_set).

Lemma keeps_log r : keeps (log r).
Proof. intros w Hw. exact Hw. Qed.

Lemma keeps_tick : keeps tick.
Proof. intros w Hw. exact Hw. Qed.

Lemma keeps_modify_self f :
  (∀ c, is_set (_shutdown_flag c) = true → is_set (_shutdown_flag (f c)) = true) →
  keeps (modify_self f).
Proof. intros Hf w Hw. apply Hf, Hw. Qed.

Lemma keeps_getattr_run_task : keeps getattr_run_task.
Proof. intros w Hw. unfold getattr_run_task. py_unfold. by destruct (_run_task (self w)). Qed.

Lemma keeps_index_contains sig : keeps (index_contains sig).
Proof.
  intros w Hw. unfold index_contains. py_unfold.
  by destruct (_activations_per_signal_age (self w)).
Qed.

Lemma keeps_index_setitem sig v : keeps (index_setitem sig v).
Proof.
  intros w Hw. unfold index_setitem. py_unfold.
  by destruct (_activations_per_signal_age (self w)).
Qed.

Lemma keeps_index_getitem sig : keeps (index_getitem sig).
Proof.
  intros w Hw. unfold index_getitem. py_unfold.
  destruct (_activations_per_signal_age (self w)) as [|d]; [done|].
  by destruct (d !! sig).
Qed.

Lemma keeps_index_pop sig : keeps (index_pop sig).
Proof.
  intros w Hw. unfold index_pop. py_unfold.
  destruct (_activations_per_signal_age (self w)) as [|d]; [done|].
  by destruct (d !! sig).
Qed.

Lemma keeps_if_signal o body : (∀ sig, keeps (body sig)) → keeps (if_signal o body).
Proof.
  intros Hb. destruct o as [sig|]; simpl; [apply Hb | apply preserves_ret].
Qed.

Lemma keeps_get_all_signals t : keeps (get_all_signals t).
Proof. destruct t; [apply preserves_raise | apply preserves_ret]. Qed.

Lemma keeps_emit sig : keeps (emit sig).
Proof. by apply keeps_modify_self. Qed.

Lemma keeps_run_private fuel : keeps (_run_private fuel).
Proof.
  induction fuel as [|fuel IH]; [done|]. simpl.
  apply preserves_bind; [apply preserves_get_self|]. intros c.
  apply preserves_ret.
Qed.

Lemma keeps_run : keeps run.
Proof.
  apply preserves_bind; [apply keeps_getattr_run_task|]. intros o.
  apply preserves_if; [apply keeps_log|].
  apply preserves_bind; [by apply keeps_modify_self|]. intros _.
  apply preserves_bind; [|intros _; apply keeps_emit].
  apply preserves_bind; [apply keeps_getattr_run_task|].
  intros [[]|].
  - by apply keeps_modify_self.
  - apply (preserves_raise flag_set RuntimeError).
  - apply (preserves_raise flag_set RuntimeError).
  - apply (preserves_raise flag_set AttributeError).
Qed.

Lemma keeps_shutdown fuel : keeps (shutdown fuel).
Proof.
  apply preserves_bind; [by apply keeps_modify_self|]. intros _.
  apply preserves_bind; [apply keeps_emit|]. intros _.
  apply preserves_bind; [apply keeps_getattr_run_task|].
  intros [[]|].
  - apply (preserves_raise flag_set RuntimeError).
  - apply preserves_bind; [apply keeps_run_private|].
    intros _. by apply keeps_modify_self.
  - apply preserves_ret.
  - apply (preserves_raise flag_set AttributeError).
Qed.

Lemma keeps_add_state st : keeps (add_state st).
Proof.
  apply preserves_bind; [apply preserves_get_self|]. intros c.
  apply preserves_if; [apply keeps_log|].
  apply preserves_bind.
  { apply preserves_for_each. intros prop.
    apply preserves_bind; [apply preserves_get_self|]. intros c'.
    apply preserves_if; [apply keeps_log | apply preserves_ret]. }
  intros _. apply preserves_bind.
  { apply keeps_if_signal. intros sig. apply keeps_index_setitem. }
  intros _. apply preserves_bind.
  { destruct (triggers st); [apply keeps_log | apply preserves_ret]. }
  intros _. apply preserves_bind; [apply keeps_get_all_signals|]. intros sigs.
  apply preserves_bind; [|intros _; by apply keeps_modify_self].
  apply preserves_for_each. intros sig.
  apply preserves_bind; [apply keeps_index_contains|]. intros known.
  apply preserves_if; [|apply keeps_log].
  apply preserves_bind; [apply keeps_index_getitem|]. intros b.
  apply keeps_index_setitem.
Qed.

Lemma keeps_rm_state st : keeps (rm_state st).
Proof.
  apply preserves_bind; [apply preserves_get_self|]. intros c.
  apply preserves_if; [apply keeps_log|].
  apply preserves_bind.
  { apply keeps_if_signal. intros sig. apply keeps_index_pop. }
  intros _. apply preserves_bind; [apply keeps_get_all_signals|]. intros sigs.
  apply preserves_bind; [|intros _; by apply keeps_modify_self].
  apply preserves_for_each. intros sig.
  apply preserves_bind; [apply keeps_index_getitem|]. intros b.
  apply preserves_raise.
Qed.

Lemma keeps_add_prop prop : keeps (add_prop prop).
Proof.
  apply preserves_bind; [apply preserves_get_self|]. intros c.
  apply preserves_if; [apply keeps_log|].
  apply preserves_bind; [by apply keeps_modify_self|]. intros _.
  apply preserves_for_each. intros signalname. apply keeps_index_setitem.
Qed.

Lemma keeps_get_prop key : keeps (get_prop key).
Proof.
  apply preserves_bind; [apply preserves_get_self|]. intros c.
  apply preserves_if; [|apply preserves_ret].
  apply preserves_bind; [apply keeps_log | intros _; apply preserves_ret].
Qed.

Lemma keeps_call c : keeps (call c).
Proof.
  destruct c; simpl.
  - apply keeps_emit.
  - apply keeps_run.
  - apply preserves_bind; [|intros _; apply preserves_ret].
    apply preserves_bind; [apply preserves_get_self | intros c; apply preserves_ret].
  - apply keeps_shutdown.
  - apply keeps_add_state.
  - apply keeps_rm_state.
  - apply keeps_add_prop.
  - apply preserves_bind; [apply keeps_get_prop | intros _; apply preserves_ret].
Qed.
End FlagPreserved.

Lemma shutting_down_eq w :
  shutting_down w = Returned (is_set (_shutdown_flag (self w))) w.
Proof. reflexivity. Qed.

(** [shutdown] comes back, by return or by raise, as soon as it has fuel
    for one test of the loop condition, and the flag is set then. *)
Lemma shutdown_sets_flag fuel w :
  ∃ w1, world_after (shutdown (S fuel) w) = Some w1 ∧ flag_set w1.
Proof.
  destruct w as [[ps sts sgs ix [[[]|]|] fl] lg tk]; eexists; split; reflexivity.
Qed.

(** C10: [shutting_down] returns [False] on the context the constructor
    builds; [shutdown] sets the flag and comes back; and once the flag is
    set, [shutting_down] returns [True] after every sequence of calls of
    the public methods, so no call resets the flag. *)
Theorem shutting_down_monotone :
  shutting_down (world_of Context_init) = Returned false (world_of Context_init)
  ∧ (∀ fuel w, ∃ w1,
       world_after (shutdown (S fuel) w) = Some w1
       ∧ shutting_down w1 = Returned true w1)
  ∧ (∀ w l w', is_set (_shutdown_flag (self w)) = true →
       calls l w = Some w' → shutting_down w' = Returned true w')
  ∧ (∀ before fuel after w',
       calls (before ++ CallShutdown (S fuel) :: after) (world_of Context_init)
         = Some w' →
       shutting_down w' = Returned true w').
Proof.
  assert (Hkeep : ∀ w l w', flag_set w → calls l w = Some w' →
                   shutting_down w' = Returned true w').
  { intros w l w' Hw Hl. rewrite shutting_down_eq.
    by rewrite (preserves_calls flag_set l w w' keeps_call Hw Hl). }
  split; [reflexivity|]. split; [|split].
  - intros fuel w. destruct (shutdown_sets_flag fuel w) as (w1 & H1 & Hf).
    exists w1. split; [done|]. rewrite shutting_down_eq. by rewrite Hf.
  - exact Hkeep.
  - intros before fuel after. generalize (world_of Context_init).
    induction before as [|c before IH]; intros w w'; simpl.
    + destruct (shutdown_sets_flag fuel w) as (w1 & H1 & Hf). rewrite H1.
      by apply Hkeep.
    + destruct (world_after (call c w)) as [w1|]; [apply IH | done].
Qed.

Lemma shutting_down_monotone_witness :
  shutting_down (world_of Context_init) = Returned false (world_of Context_init)
  ∧ calls Scenario.calls_around_shutdown (world_of Context_init)
    = Some Scenario.after_calls_around_shutdown
  ∧ shutting_down Scenario.after_calls_around_shutdown
    = Returned true Scenario.after_calls_around_shutdown.
Proof.
  split; [apply shutting_down_monotone|].
  assert (H : calls Scenario.calls_around_shutdown (world_of Context_init)
              = Some Scenario.after_calls_around_shutdown)
    by (vm_compute; reflexivity).
  split; [exact H|].
  exact (proj2 (proj2 (proj2 shutting_down_monotone))
           [CallAddProp Scenario.foo] 0
           [CallEmit (s ":idle"); CallRun; CallGetProp "baz:qux"]
           Scenario.after_calls_around_shutdown H).
Defined.

(** ** Specificity *)


Lemma satisfied_mono m1 m2 e :
  m1 ⊆ m2 → satisfied m1 e = true → satisfied m2 e = true.
Proof.
  intros Hsub. induction e as [sig|cs IH|cs IH] using Constraint_ind'; simpl.
  - rewrite !bool_decide_eq_true. apply Hsub.
  - induction IH as [|c cs Hc _ IHcs]; simpl; [done|].
    rewrite !andb_true_iff. intros [H1 H2]. auto.
  - induction IH as [|c cs Hc _ IHcs]; simpl; [done|].
    rewrite !orb_true_iff. intros [H1|H2]; auto.
Qed.

Lemma specificity_of_mono m1 m2 e :
  m1 ⊆ m2 → specificity_of m1 e ≤ specificity_of m2 e.
Proof.
  intros Hsub. induction e as [sig|cs IH|cs IH] using Constraint_ind'; simpl.
  - destruct (bool_decide (sig ∈ m1)) eqn:H1; [|lia].
    apply bool_decide_eq_true in H1.
    rewrite bool_decide_eq_true_2; [lia | by apply Hsub].
  - induction IH as [|c cs Hc _ IHcs]; simpl; lia.
  - induction IH as [|c cs Hc _ IHcs]; simpl; [lia|].
    destruct (satisfied m1 c) eqn:H1.
    + rewrite (satisfied_mono m1 m2 c Hsub H1). lia.
    + destruct (satisfied m2 c); lia.
Qed.

(** An expression that becomes satisfied gains specificity. *)
Lemma specificity_of_strict m1 m2 e :
  m1 ⊆ m2 → satisfied m1 e = false → satisfied m2 e = true →
  specificity_of m1 e < specificity_of m2 e.
Proof.
  intros Hsub. induction e as [sig|cs IH|cs IH] using Constraint_ind'; simpl.
  - intros -> ->. lia.
  - induction IH as [|c cs Hc _ IHcs]; simpl; [done|].
    rewrite andb_false_iff, andb_true_iff. intros Hf [Ht1 Ht2].
    pose proof (specificity_of_mono m1 m2 c Hsub) as Hc'.
    pose proof (specificity_of_mono m1 m2 (And cs) Hsub) as Hcs'. simpl in Hcs'.
    destruct (satisfied m1 c) eqn:H1.
    + destruct Hf as [Hf|Hf]; [done|]. specialize (IHcs Hf Ht2). lia.
    + specialize (Hc eq_refl Ht1). lia.
  - intros Hf Ht.
    assert (Hzero : ∀ l, existsb (satisfied m1) l = false →
              foldr (λ c acc, if satisfied m1 c
                              then specificity_of m1 c `max` acc else acc) 0 l = 0).
    { induction l as [|c l IHl]; simpl; [done|].
      rewrite orb_false_iff. intros [-> Hl]. by apply IHl. }
    rewrite (Hzero cs Hf). clear Hzero.
    induction IH as [|c cs Hc _ IHcs]; simpl in *; [done|].
    apply orb_false_iff in Hf as [Hf1 Hf2].
    destruct (satisfied m2 c) eqn:H2.
    + specialize (Hc Hf1 eq_refl). lia.
    + simpl in Ht. by apply IHcs.
Qed.

Lemma matched_acquire spike a :
  matched a ⊆ matched (Activation_acquire spike a).2.
Proof.
  unfold Activation_acquire. case_match; simpl; [|done].
  unfold matched; simpl. apply union_subseteq_r.
Qed.

(** C7: for the expression [And(A, B)] over two signals, an activation
    that has matched [A] and [B] is strictly more specific than one that
    has matched [A] only; acquiring a spike never lowers the specificity of
    an activation; specificity is monotone in the set of matched signals;
    and for sub-expressions [A] and [B], matching more signals until [B]
    is satisfied as well strictly raises the specificity of [And(A, B)]. *)
Theorem specificity_monotone :
  (∀ (A B : Signal) (a1 a2 : Activation),
     constraint a1 = And [Leaf A; Leaf B] →
     constraint a2 = And [Leaf A; Leaf B] →
     A ∈ matched a1 → B ∉ matched a1 →
     A ∈ matched a2 → B ∈ matched a2 →
     Activation_specificity a1 < Activation_specificity a2)
  ∧ (∀ (a : Activation) (spike : Spike),
       Activation_specificity a
       ≤ Activation_specificity (Activation_acquire spike a).2)
  ∧ (∀ (e : Constraint) (m1 m2 : gset Signal),
       m1 ⊆ m2 → specificity_of m1 e ≤ specificity_of m2 e)
  ∧ (∀ (A B : Constraint) (m1 m2 : gset Signal),
       m1 ⊆ m2 →
       satisfied m1 A = true → satisfied m1 B = false →
       satisfied m2 A = true → satisfied m2 B = true →
       specificity_of m1 (And [A; B]) < specificity_of m2 (And [A; B])).
Proof.
  split; [|split; [|split]].
  - intros A B a1 a2 H1 H2 HA1 HB1 HA2 HB2.
    unfold Activation_specificity. rewrite H1, H2. simpl.
    rewrite (bool_decide_eq_true_2 _ HA1), (bool_decide_eq_false_2 _ HB1).
    rewrite (bool_decide_eq_true_2 _ HA2), (bool_decide_eq_true_2 _ HB2). lia.
  - intros a spike. unfold Activation_specificity.
    replace (constraint (Activation_acquire spike a).2) with (constraint a)
      by (unfold Activation_acquire; by case_match).
    apply specificity_of_mono, matched_acquire.
  - intros e m1 m2. apply specificity_of_mono.
  - intros A B m1 m2 Hsub HA1 HB1 HA2 HB2. simpl.
    pose proof (specificity_of_mono m1 m2 A Hsub).
    pose proof (specificity_of_strict m1 m2 B Hsub HB1 HB2). lia.
Qed.

Lemma specificity_monotone_witness :
  Activation_specificity Scenario.matched_changed
  < Activation_specificity Scenario.matched_both.
Proof.
  apply (proj1 specificity_monotone (s "bar:foo:changed") (s "bar:foo:pushed")).
  all: first [reflexivity | decide_by_evaluation].
Defined.

(** ** Removing states: [rm_state] *)

Lemma rm_state_unknown w st :
  st ∉ _states (self w) →
  rm_state st w =
    Returned tt (with_logged (logged w ++ [ErrRemoveUnknownState (name st)]) w).
Proof.
  intros H. unfold rm_state. py_unfold. by rewrite bool_decide_eq_false_2.
Qed.

(** The loop over the trigger signals raises at its first signal. *)
Lemma rm_state_loop_raises st sig sigs w :
  ∃ exn,
    for_each (sig :: sigs) (λ sig, b ←ₚ index_getitem sig; buckets_remove b st) w
    = Raised exn w.
Proof.
  simpl. unfold index_getitem, buckets_remove. py_unfold.
  destruct (_activations_per_signal_age (self w)) as [|d]; [by eexists|].
  destruct (d !! sig); by eexists.
Qed.

Lemma rm_state_triggered_raises w st e sig sigs :
  st ∈ _states (self w) →
  triggers st = TriggerExpr e →
  Constraint_get_all_signals e = sig :: sigs →
  ∃ exn w',
    rm_state st w = Raised exn w'
    ∧ st ∈ _states (self w')
    ∧ _states (self w') = _states (self w)
    ∧ logged w' = logged w.
Proof.
  intros Hst Ht Hs. unfold rm_state, bind at 1, get_self.
  rewrite bool_decide_eq_true_2 by done. simpl. unfold with_lock.
  unfold bind at 1.
  assert (Hpop : (∃ exn, if_signal (signal st) (λ sig, index_pop sig) w = Raised exn w)
                 ∨ (∃ w1, if_signal (signal st) (λ sig, index_pop sig) w = Returned tt w1
                      ∧ _states (self w1) = _states (self w)
                      ∧ logged w1 = logged w)).
  { unfold if_signal, index_pop. py_unfold.
    destruct (signal st) as [own|]; simpl; [|right; by eexists].
    destruct (_activations_per_signal_age (self w)) as [|d]; [left; by eexists|].
    destruct (d !! own); [right; by eexists | left; by eexists]. }
  destruct Hpop as [[exn ->]|(w1 & -> & Hs1 & Hl1)].
  - exists exn, w. by repeat split.
  - rewrite Ht. simpl. unfold bind at 1, ret. rewrite Hs.
    unfold bind at 1.
    destruct (rm_state_loop_raises st sig sigs w1) as [exn ->].
    exists exn, w1. rewrite Hs1, Hl1. by repeat split.
Qed.

Lemma rm_state_indexed_raises w st e sig sigs d b :
  st ∈ _states (self w) →
  triggers st = TriggerExpr e →
  Constraint_get_all_signals e = sig :: sigs →
  signal st = None →
  _activations_per_signal_age (self w) = IndexDict d →
  d !! sig = Some b →
  rm_state st w = Raised AttributeError w.
Proof.
  intros Hst Ht Hs Hown Hd Hb. unfold rm_state, bind at 1, get_self.
  rewrite bool_decide_eq_true_2 by done. simpl.
  rewrite Hown, Ht. simpl. py_unfold. rewrite Hs. simpl.
  unfold index_getitem, buckets_remove. py_unfold. by rewrite Hd, Hb.
Qed.

(** A registered state without trigger signals and without a signal of its
    own is removed. *)
Lemma rm_state_without_triggers w st e :
  st ∈ _states (self w) →
  triggers st = TriggerExpr e →
  Constraint_get_all_signals e = [] →
  signal st = None →
  rm_state st w = Returned tt (with_self (set_states (_states (self w) ∖ {[st]}) (self w)) w).
Proof.
  intros Hst Ht Hs Hown. unfold rm_state, bind at 1, get_self.
  rewrite bool_decide_eq_true_2 by done. simpl.
  rewrite Hown, Ht. simpl. py_unfold. by rewrite Hs.
Qed.

(** C6: [rm_state] on a registered state with at least one trigger signal
    raises and leaves the state registered: the entry of a known trigger
    signal is a dictionary of age buckets, which has no [remove]; an
    unknown trigger signal is a missing key.  With no signal of its own
    and its first trigger signal in the index, the call raises
    [AttributeError] and changes nothing.  On a state that is not
    registered, [rm_state] logs an error and changes nothing else. *)
Theorem rm_state_raises_for_triggered_state :
  (∀ w st e sig sigs,
     st ∈ _states (self w) →
     triggers st = TriggerExpr e →
     Constraint_get_all_signals e = sig :: sigs →
     ∃ exn w',
       rm_state st w = Raised exn w'
       ∧ st ∈ _states (self w')
       ∧ _states (self w') = _states (self w)
       ∧ logged w' = logged w)
  ∧ (∀ w st e sig sigs d b,
       st ∈ _states (self w) →
       triggers st = TriggerExpr e →
       Constraint_get_all_signals e = sig :: sigs →
       signal st = None →
       _activations_per_signal_age (self w) = IndexDict d →
       d !! sig = Some b →
       rm_state st w = Raised AttributeError w)
  ∧ (∀ w st,
       st ∉ _states (self w) →
       rm_state st w =
         Returned tt
           (with_logged (logged w ++ [ErrRemoveUnknownState (name st)]) w)).
Proof.
  split; [|split].
  - apply rm_state_triggered_raises.
  - apply rm_state_indexed_raises.
  - apply rm_state_unknown.
Qed.

Lemma rm_state_raises_for_triggered_state_witness :
  rm_state Scenario.S1 scenario1_registered
  = Raised AttributeError scenario1_registered.
Proof.
  apply (proj1 (proj2 rm_state_raises_for_triggered_state)
           scenario1_registered Scenario.S1 (Leaf (s "bar:foo:changed"))
           (s "bar:foo:changed") [] scenario1_index
           {[ 0%Z := {[ Scenario.S1 ]} ]}).
  - change (Scenario.S1 ∈ ({[ Scenario.S1 ]} : gset State)).
    by apply elem_of_singleton.
  - reflexivity.
  - reflexivity.
  - reflexivity.
  - reflexivity.
  - apply lookup_insert_eq.
Defined.

(** * Further properties of the context *)

Lemma calls_around_shutdown_eq :
  calls Scenario.calls_around_shutdown (world_of Context_init)
  = Some Scenario.after_calls_around_shutdown.
Proof. vm_compute. reflexivity. Qed.

(** ** Transitions of the context under the public methods *)

Section Transitions.
Variable R : Context → Context → Prop.
Hypothesis R_refl : ∀ c, R c c.
Hypothesis R_trans : ∀ c1 c2 c3, R c1 c2 → R c2 c3 → R c1 c3.

(** Whether [m] returns or raises, the context it leaves is related to the
    one it started from. *)
Definition transits {A} (m : Py A) : Prop :=
  ∀ w,
    match m w with
    | Returned _ w' | Raised _ w' => R (self w) (self w')
    | Blocked => True
    end.

Lemma transits_ret {A} (a : A) : transits (ret a).
Proof. intros w. apply R_refl. Qed.

Lemma transits_raise {A} e : transits (@raise A e).
Proof. intros w. apply R_refl. Qed.

Lemma transits_get_self : transits get_self.
Proof. intros w. apply R_refl. Qed.

Lemma transits_log r : transits (log r).
Proof. intros w. apply R_refl. Qed.

Lemma transits_tick : transits tick.
Proof. intros w. apply R_refl. Qed.

Lemma transits_bind {A B} (m : Py A) (k : A → Py B) :
  transits m → (∀ a, transits (k a)) → transits (bind m k).
Proof.
  intros Hm Hk w. unfold bind. specialize (Hm w).
  destruct (m w) as [a w1|e w1|]; [|done|done].
  specialize (Hk a w1).
  destruct (k a w1) as [b w2|e w2|]; [| |done]; by eapply R_trans.
Qed.

Lemma transits_for_each {A} (l : list A) (body : A → Py unit) :
  (∀ x, transits (body x)) → transits (for_each l body).
Proof.
  intros Hb. induction l as [|x l IH]; simpl.
  - apply transits_ret.
  - apply transits_bind; [apply Hb | intros _; exact IH].
Qed.

Lemma transits_if {A} (b : bool) (m1 m2 : Py A) :
  transits m1 → transits m2 → transits (if b then m1 else m2).
Proof. by destruct b. Qed.

Lemma transits_modify_self f : (∀ c, R c (f c)) → transits (modify_self f).
Proof. intros Hf w. apply Hf. Qed.

Lemma transits_getattr_run_task : transits getattr_run_task.
Proof.
  intros w. unfold getattr_run_task. py_unfold.
  destruct (_run_task (self w)); apply R_refl.
Qed.

Lemma transits_index_contains sig : transits (index_contains sig).
Proof.
  intros w. unfold index_contains. py_unfold.
  destruct (_activations_per_signal_age (self w)); apply R_refl.
Qed.

Lemma transits_index_getitem sig : transits (index_getitem sig).
Proof.
  intros w. unfold index_getitem. py_unfold.
  destruct (_activations_per_signal_age (self w)) as [|d]; [apply R_refl|].
  destruct (d !! sig); apply R_refl.
Qed.

Lemma transits_get_all_signals t : transits (get_all_signals t).
Proof. destruct t; [apply transits_raise | apply transits_ret]. Qed.

Lemma transits_if_signal o body :
  (∀ sig, transits (body sig)) → transits (if_signal o body).
Proof.
  intros Hb. destruct o as [sig|]; simpl; [apply Hb | apply transits_ret].
Qed.

Lemma transits_run_private fuel : transits (_run_private fuel).
Proof.
  destruct fuel as [|fuel]; [done|]. intros w. apply R_refl.
Qed.

Lemma transits_shutting_down : transits shutting_down.
Proof. intros w. apply R_refl. Qed.

Lemma transits_get_prop key : transits (get_prop key).
Proof.
  apply transits_bind; [apply transits_get_self|]. intros c.
  apply transits_if; [|apply transits_ret].
  apply transits_bind; [apply transits_log | intros _; apply transits_ret].
Qed.

(** What the relation has to allow, update by update. *)
Hypothesis R_index_setitem : ∀ sig v, transits (index_setitem sig v).
Hypothesis R_index_pop : ∀ sig, transits (index_pop sig).
Hypothesis R_states : ∀ X c, R c (set_states X c).
Hypothesis R_signals : ∀ sig c, R c (set_signals ({[sig]} ∪ _signals c) c).
Hypothesis R_properties :
  ∀ key prop c, R c (set_properties (<[key := prop]> (_properties c)) c).
Hypothesis R_shutdown_flag :
  ∀ c, R c (set_shutdown_flag (Event_set (_shutdown_flag c)) c).
Hypothesis R_run_task : ∀ t c, R c (set_run_task t c).

Lemma transits_emit sig : transits (emit sig).
Proof. apply transits_modify_self. intros c. apply R_signals. Qed.

Lemma transits_add_state st : transits (add_state st).
Proof.
  apply transits_bind; [apply transits_get_self|]. intros c.
  apply transits_if; [apply transits_log|].
  apply transits_bind.
  { apply transits_for_each. intros prop.
    apply transits_bind; [apply transits_get_self|]. intros c'.
    apply transits_if; [apply transits_log | apply transits_ret]. }
  intros _. apply transits_bind.
  { apply transits_if_signal. intros sig. apply R_index_setitem. }
  intros _. apply transits_bind.
  { destruct (triggers st); [apply transits_log | apply transits_ret]. }
  intros _. apply transits_bind; [apply transits_get_all_signals|]. intros sigs.
  apply transits_bind.
  - apply transits_for_each. intros sig.
    apply transits_bind; [apply transits_index_contains|]. intros known.
    apply transits_if; [|apply transits_log].
    apply transits_bind; [apply transits_index_getitem|]. intros b.
    apply R_index_setitem.
  - intros _. apply transits_modify_self. intros c'. apply R_states.
Qed.

Lemma transits_rm_state st : transits (rm_state st).
Proof.
  apply transits_bind; [apply transits_get_self|]. intros c.
  apply transits_if; [apply transits_log|].
  apply transits_bind.
  { apply transits_if_signal. intros sig. apply R_index_pop. }
  intros _. apply transits_bind; [apply transits_get_all_signals|]. intros sigs.
  apply transits_bind.
  - apply transits_for_each. intros sig.
    apply transits_bind; [apply transits_index_getitem|]. intros b.
    apply (transits_raise AttributeError).
  - intros _. apply transits_modify_self. intros c'. apply R_states.
Qed.

Lemma transits_add_prop prop : transits (add_prop prop).
Proof.
  apply transits_bind; [apply transits_get_self|]. intros c.
  apply transits_if; [apply transits_log|].
  apply transits_bind.
  - apply transits_modify_self. intros c'. apply R_properties.
  - intros _. apply transits_for_each. intros signalname.
    apply R_index_setitem.
Qed.

Lemma transits_run : transits run.
Proof.
  apply transits_bind; [apply transits_getattr_run_task|]. intros o.
  apply transits_if; [apply transits_log|].
  apply transits_bind.
  { apply transits_modify_self. intros c. apply R_run_task. }
  intros _. apply transits_bind; [|intros _; apply transits_emit].
  apply transits_bind; [apply transits_getattr_run_task|].
  intros [[]|].
  - apply transits_modify_self. intros c. apply R_run_task.
  - apply (transits_raise RuntimeError).
  - apply (transits_raise RuntimeError).
  - apply (transits_raise AttributeError).
Qed.

Lemma transits_shutdown fuel : transits (shutdown fuel).
Proof.
  apply transits_bind.
  { apply transits_modify_self. intros c. apply R_shutdown_flag. }
  intros _. apply transits_bind; [apply transits_emit|]. intros _.
  apply transits_bind; [apply transits_getattr_run_task|].
  intros [[]|].
  - apply (transits_raise RuntimeError).
  - apply transits_bind; [apply transits_run_private|].
    intros _. apply transits_modify_self. intros c. apply R_run_task.
  - apply transits_ret.
  - apply (transits_raise AttributeError).
Qed.

Lemma transits_call c : transits (call c).
Proof.
  destruct c; simpl.
  - apply transits_emit.
  - apply transits_run.
  - apply transits_bind; [apply transits_shutting_down | intros _; apply transits_ret].
  - apply transits_shutdown.
  - apply transits_add_state.
  - apply transits_rm_state.
  - apply transits_add_prop.
  - apply transits_bind; [apply transits_get_prop | intros _; apply transits_ret].
Qed.

(** A sequence of calls, each of which transits. *)
Lemma transits_calls l w w' :
  Forall (λ c, transits (call c)) l → calls l w = Some w' → R (self w) (self w').
Proof.
  intros Hl. revert w. induction Hl as [|c l Hc _ IH]; intros w; simpl.
  - intros [= <-]. apply R_refl.
  - specialize (Hc w).
    destruct (call c w) as [a w1|e w1|]; simpl; [| |done];
      intros H1; eapply R_trans; eauto.
Qed.
End Transitions.

(** An update of the signal index is allowed as soon as every index is. *)
Lemma transits_index_setitem_any (R : Context → Context → Prop) sig v :
  (∀ c, R c c) → (∀ i c, R c (set_index i c)) →
  transits R (index_setitem sig v).
Proof.
  intros Hrefl Hix w. unfold index_setitem. py_unfold.
  destruct (_activations_per_signal_age (self w)); [apply Hrefl | apply Hix].
Qed.

Lemma transits_index_pop_any (R : Context → Context → Prop) sig :
  (∀ c, R c c) → (∀ i c, R c (set_index i c)) →
  transits R (index_pop sig).
Proof.
  intros Hrefl Hix w. unfold index_pop. py_unfold.
  destruct (_activations_per_signal_age (self w)) as [|d]; [apply Hrefl|].
  destruct (d !! sig); [apply Hix | apply Hrefl].
Qed.

(** ** Pending signals *)

Lemma for_each_emit_collects sigs w :
  for_each sigs emit w =
  Returned tt
    (with_self (set_signals (list_to_set sigs ∪ _signals (self w)) (self w)) w).
Proof.
  revert w. induction sigs as [|sig sigs IH]; intros w.
  - destruct w as [[ps sts sgs ix rt fl] lg tk]. simpl.
    unfold ret, with_self, set_signals; simpl. by rewrite (left_id_L ∅ (∪)).
  - cbn [for_each]. unfold bind. rewrite emit_eq, IH.
    unfold with_self; simpl. rewrite set_signals_twice.
    do 3 f_equal.
    by rewrite (assoc_L (∪)), (comm_L (∪) (list_to_set sigs) {[sig]}).
Qed.

(** X1: emitting the signals of a list leaves the same world as emitting
    those of any list with the same elements: neither the order of the
    emits nor their repetition shows in the pending signals. *)
Theorem emit_order_and_repetition_irrelevant (l1 l2 : list Signal) (w : World) :
  (list_to_set l1 : gset Signal) = list_to_set l2 →
  for_each l1 emit w = for_each l2 emit w.
Proof. intros H. by rewrite !for_each_emit_collects, H. Qed.

Lemma emit_order_and_repetition_irrelevant_witness :
  for_each [s ":startup"; s ":idle"; s ":startup"] emit (world_of Context_init)
  = for_each [s ":idle"; s ":startup"] emit (world_of Context_init).
Proof.
  apply emit_order_and_repetition_irrelevant. vm_compute. reflexivity.
Defined.

Lemma signals_kept_call c : transits signals_kept (call c).
Proof.
  apply transits_call; unfold signals_kept.
  - done.
  - intros c1 c2 c3 H12 H23. by transitivity (_signals c2).
  - intros sig v. by apply transits_index_setitem_any.
  - intros sig. by apply transits_index_pop_any.
  - done.
  - intros sig c'. apply union_subseteq_r.
  - done.
  - done.
  - done.
Qed.

(** X2: no sequence of calls of the public methods takes a signal out of
    the pending set: whatever was emitted stays pending. *)
Theorem pending_signals_never_drained (l : list Call) (w w' : World) :
  calls l w = Some w' → _signals (self w) ⊆ _signals (self w').
Proof.
  apply (transits_calls signals_kept).
  - intros c. by unfold signals_kept.
  - intros c1 c2 c3 H12 H23. unfold signals_kept in *.
    by transitivity (_signals c2).
  - apply Forall_forall. intros c _. apply signals_kept_call.
Qed.

Lemma pending_signals_never_drained_witness :
  _signals (self (world_of Context_init))
  ⊆ _signals (self Scenario.after_calls_around_shutdown).
Proof.
  apply (pending_signals_never_drained Scenario.calls_around_shutdown).
  apply calls_around_shutdown_eq.
Defined.

(** ** The property registry under sequences of calls *)

Lemma names_kept_call c : transits names_kept (call c).
Proof.
  apply transits_call; unfold names_kept.
  - done.
  - intros c1 c2 c3 H12 H23. by transitivity (dom (_properties c2)).
  - intros sig v. by apply transits_index_setitem_any.
  - intros sig. by apply transits_index_pop_any.
  - done.
  - done.
  - intros key prop c'. simpl. rewrite dom_insert_L. apply union_subseteq_r.
  - done.
  - done.
Qed.

(** X3: no sequence of calls of the public methods unregisters a
    property: a full name the registry holds stays in the registry. *)
Theorem property_names_never_removed (l : list Call) (w w' : World) :
  calls l w = Some w' → dom (_properties (self w)) ⊆ dom (_properties (self w')).
Proof.
  apply (transits_calls names_kept).
  - intros c. by unfold names_kept.
  - intros c1 c2 c3 H12 H23. unfold names_kept in *.
    by transitivity (dom (_properties c2)).
  - apply Forall_forall. intros c _. apply names_kept_call.
Qed.

Lemma property_names_never_removed_witness :
  dom (_properties (self scenario1_registered))
  ⊆ dom (_properties (self scenario1_overwritten)).
Proof.
  apply (property_names_never_removed [CallAddProp Scenario.foo_again]).
  simpl. by rewrite scenario1_overwriting.
Defined.

Lemma scenario1_removal :
  rm_state Scenario.S1 scenario1_registered
  = Raised AttributeError scenario1_registered.
Proof.
  apply (rm_state_indexed_raises scenario1_registered Scenario.S1
           (Leaf (s "bar:foo:changed")) (s "bar:foo:changed") []
           scenario1_index {[ 0%Z := {[ Scenario.S1 ]} ]});
    first [ reflexivity
          | apply lookup_insert_eq
          | change (Scenario.S1 ∈ ({[ Scenario.S1 ]} : gset State));
            by apply elem_of_singleton ].
Qed.

Ltac solve_same_field :=
  first
    [ by apply transits_index_setitem_any
    | by apply transits_index_pop_any
    | by (intros; simpl; congruence) ].

Lemma same_properties_call c :
  (∀ prop, c ≠ CallAddProp prop) → transits same_properties (call c).
Proof.
  intros Hc. unfold same_properties.
  destruct c as [sig| | |fuel|st|st|prop|key]; simpl.
  - apply transits_emit; solve_same_field.
  - apply transits_run; solve_same_field.
  - apply transits_bind; [solve_same_field| |].
    + apply transits_shutting_down; solve_same_field.
    + intros _. apply transits_ret; solve_same_field.
  - apply transits_shutdown; solve_same_field.
  - apply transits_add_state; intros; solve_same_field.
  - apply transits_rm_state; intros; solve_same_field.
  - by destruct (Hc prop).
  - apply transits_bind; [solve_same_field| |].
    + apply transits_get_prop; solve_same_field.
    + intros _. apply transits_ret; solve_same_field.
Qed.

(** X4: the property registry changes through [add_prop] only: a
    sequence of calls without [add_prop] leaves the registry as it was. *)
Theorem properties_change_only_by_add_prop (l : list Call) (w w' : World) :
  Forall (λ c, ∀ prop, c ≠ CallAddProp prop) l →
  calls l w = Some w' →
  _properties (self w') = _properties (self w).
Proof.
  intros Hl. apply (transits_calls same_properties); unfold same_properties.
  - done.
  - intros; congruence.
  - induction Hl as [|c l Hc _ IH]; constructor; [|exact IH].
    by apply same_properties_call.
Qed.

Lemma scenario1_shut_eq :
  calls [CallRmState Scenario.S1; CallEmit (s ":idle"); CallShutdown 1]
    scenario1_registered = Some scenario1_shut.
Proof. simpl. rewrite scenario1_removal. reflexivity. Qed.

Lemma properties_change_only_by_add_prop_witness :
  _properties (self scenario1_shut) = _properties (self scenario1_registered).
Proof.
  apply (properties_change_only_by_add_prop
           [CallRmState Scenario.S1; CallEmit (s ":idle"); CallShutdown 1]).
  - repeat (constructor; [by intros prop|]). constructor.
  - apply scenario1_shut_eq.
Defined.

(** ** The registered states under sequences of calls *)

Lemma same_states_call c :
  (∀ st, c ≠ CallAddState st ∧ c ≠ CallRmState st) →
  transits same_states (call c).
Proof.
  intros Hc. unfold same_states.
  destruct c as [sig| | |fuel|st|st|prop|key]; simpl.
  - apply transits_emit; solve_same_field.
  - apply transits_run; solve_same_field.
  - apply transits_bind; [solve_same_field| |].
    + apply transits_shutting_down; solve_same_field.
    + intros _. apply transits_ret; solve_same_field.
  - apply transits_shutdown; solve_same_field.
  - by destruct (Hc st) as [? _].
  - by destruct (Hc st) as [_ ?].
  - apply transits_add_prop; intros; solve_same_field.
  - apply transits_bind; [solve_same_field| |].
    + apply transits_get_prop; solve_same_field.
    + intros _. apply transits_ret; solve_same_field.
Qed.

(** X5: the set of registered states changes through [add_state] and
    [rm_state] only: a sequence of other calls, [add_prop] among them,
    leaves it as it was. *)
Theorem states_change_only_by_add_state_and_rm_state
    (l : list Call) (w w' : World) :
  Forall (λ c, ∀ st, c ≠ CallAddState st ∧ c ≠ CallRmState st) l →
  calls l w = Some w' →
  _states (self w') = _states (self w).
Proof.
  intros Hl. apply (transits_calls same_states); unfold same_states.
  - done.
  - intros; congruence.
  - induction Hl as [|c l Hc _ IH]; constructor; [|exact IH].
    by apply same_states_call.
Qed.

Lemma scenario1_idle_eq :
  calls [CallAddProp Scenario.foo_again; CallEmit (s ":idle"); CallRun]
    scenario1_registered = Some scenario1_idle.
Proof. simpl. rewrite scenario1_overwriting. reflexivity. Qed.

Lemma states_change_only_by_add_state_and_rm_state_witness :
  _states (self scenario1_idle) = _states (self scenario1_registered).
Proof.
  apply (states_change_only_by_add_state_and_rm_state
           [CallAddProp Scenario.foo_again; CallEmit (s ":idle"); CallRun]).
  - repeat (constructor; [by intros st|]). constructor.
  - apply scenario1_idle_eq.
Defined.

(** ** The context the constructor builds *)

Lemma stays_as_constructed_index_setitem sig v :
  transits stays_as_constructed (index_setitem sig v).
Proof.
  intros w. unfold index_setitem. py_unfold.
  destruct (_activations_per_signal_age (self w)) eqn:E; [by intros H|].
  intros [_ H]. congruence.
Qed.

Lemma stays_as_constructed_index_pop sig :
  transits stays_as_constructed (index_pop sig).
Proof.
  intros w. unfold index_pop. py_unfold.
  destruct (_activations_per_signal_age (self w)) as [|d] eqn:E; [by intros H|].
  destruct (d !! sig); [|by intros H]. intros [_ H]. congruence.
Qed.

Lemma run_as_constructed w :
  as_constructed (self w) → run w = Raised AttributeError w.
Proof. intros [H _]. by apply run_unset. Qed.

Lemma stays_as_constructed_call c : transits stays_as_constructed (call c).
Proof.
  assert (Hrefl : ∀ c, stays_as_constructed c c) by (by intros c' H).
  assert (Htrans : ∀ c1 c2 c3, stays_as_constructed c1 c2 →
            stays_as_constructed c2 c3 → stays_as_constructed c1 c3)
    by (intros c1 c2 c3 H12 H23 H; auto).
  destruct c as [sig| | |fuel|st|st|prop|key]; simpl.
  - apply transits_emit. by intros sig' c [H1 H2].
  - intros w. destruct (_run_task (self w)) as [o|] eqn:E.
    + destruct (run w) as [a w'|e w'|]; [| |done]; intros [H _]; congruence.
    + rewrite run_unset by done. apply Hrefl.
  - apply transits_bind; [done| |].
    + by apply transits_shutting_down.
    + intros _. by apply transits_ret.
  - intros w. destruct (_run_task (self w)) as [o|] eqn:E.
    + destruct (shutdown fuel w) as [a w'|e w'|]; [| |done]; intros [H _]; congruence.
    + rewrite shutdown_without_run_task by done. simpl. by intros [H1 H2].
  - apply transits_add_state;
      first [ assumption | apply stays_as_constructed_index_setitem
            | by intros X c [H1 H2] ].
  - apply transits_rm_state;
      first [ assumption | apply stays_as_constructed_index_pop
            | by intros X c [H1 H2] ].
  - apply transits_add_prop;
      first [ assumption | apply stays_as_constructed_index_setitem
            | by intros k p c [H1 H2] ].
  - apply transits_bind; [done| |].
    + by apply transits_get_prop.
    + intros _. by apply transits_ret.
Qed.

(** X6: a context that has no run task assigned and the typing object as
    its signal index, as the constructor leaves it, stays so under every
    sequence of calls of the public methods; on every context reached
    this way [run] and [shutdown] raise [AttributeError] and [add_prop]
    raises [TypeError]. *)
Theorem constructed_context_never_runs (l : list Call) (w w' : World) :
  as_constructed (self w) →
  calls l w = Some w' →
  as_constructed (self w')
  ∧ run w' = Raised AttributeError w'
  ∧ (∀ fuel, ∃ w'', shutdown fuel w' = Raised AttributeError w'')
  ∧ (∀ prop, ∃ w'', add_prop prop w' = Raised TypeError w'').
Proof.
  intros Hw Hl.
  assert (Hw' : as_constructed (self w')).
  { revert Hw. revert Hl. apply (transits_calls stays_as_constructed).
    - by intros c H.
    - intros c1 c2 c3 H12 H23 H. auto.
    - apply Forall_forall. intros c _. apply stays_as_constructed_call. }
  split; [exact Hw'|]. destruct Hw' as [Hrt Hix].
  split; [by apply run_unset|]. split.
  - intros fuel. eexists. by apply shutdown_without_run_task.
  - intros prop. rewrite add_prop_eq, Hix. simpl. by eexists.
Qed.

Lemma constructed_context_never_runs_witness :
  as_constructed (self Scenario.after_calls_around_shutdown)
  ∧ run Scenario.after_calls_around_shutdown
    = Raised AttributeError Scenario.after_calls_around_shutdown
  ∧ (∀ fuel, ∃ w'',
       shutdown fuel Scenario.after_calls_around_shutdown
       = Raised AttributeError w'')
  ∧ (∀ prop, ∃ w'',
       add_prop prop Scenario.after_calls_around_shutdown = Raised TypeError w'').
Proof.
  apply (constructed_context_never_runs Scenario.calls_around_shutdown
           (world_of Context_init)).
  - by split.
  - apply calls_around_shutdown_eq.
Defined.

(** ** [add_prop] and [add_state] on the typing object *)

(** X7: on a context whose signal index is the typing object the
    constructor stores, [add_prop] raises [TypeError] at the first signal
    it wants to enter, after it has bound the full name: the property is
    registered, [get_prop] returns it, and no signal of it exists. *)
Theorem add_prop_raises_after_registering (w : World) (prop : PropertyBase) :
  _activations_per_signal_age (self w) = TypingAlias →
  ∃ w',
    add_prop prop w = Raised TypeError w'
    ∧ get_prop (fullname prop) w' = Returned (Some prop) w'
    ∧ logged w' = logged w
    ∧ _activations_per_signal_age (self w') = TypingAlias.
Proof.
  intros Hix. rewrite add_prop_eq, Hix. simpl. eexists. split; [done|].
  split; [|done]. apply get_prop_known. simpl. apply lookup_insert_eq.
Qed.

Lemma add_prop_raises_after_registering_witness :
  ∃ w',
    add_prop Scenario.foo (world_of Context_init) = Raised TypeError w'
    ∧ get_prop (fullname Scenario.foo) w' = Returned (Some Scenario.foo) w'
    ∧ logged w' = logged (world_of Context_init)
    ∧ _activations_per_signal_age (self w') = TypingAlias.
Proof.
  apply (add_prop_raises_after_registering (world_of Context_init) Scenario.foo).
  reflexivity.
Defined.



(** ** [add_state] on a string trigger *)

(** X9: on a dictionary index, [add_state] on a state that is not
    registered and whose trigger is a string logs the errors for its
    unregistered properties and the error for the string trigger, and
    then raises [AttributeError]: the state is not registered, but its own
    signal has been entered into the index. *)
Theorem add_state_string_trigger_raises (w : World) (st : State)
    (trig : string) (d : gmap Signal AgeBuckets) :
  st ∉ _states (self w) →
  triggers st = TriggerStr trig →
  _activations_per_signal_age (self w) = IndexDict d →
  ∃ w',
    add_state st w = Raised AttributeError w'
    ∧ logged w' =
        ((logged w ++
          (ErrUnknownProperty <$>
             filter (λ p, p ∉ dom (_properties (self w)))
               (read_props st ++ write_props st)))
         ++ [ErrStringTrigger trig])%list
    ∧ _states (self w') = _states (self w)
    ∧ _activations_per_signal_age (self w') = IndexDict (own_signal_entry st d).
Proof.
  intros Hst Ht Hd. unfold add_state, bind at 1, get_self.
  rewrite bool_decide_eq_false_2 by done.
  unfold bind at 1. rewrite add_state_props_loop. unfold with_lock.
  unfold bind at 1. rewrite (add_state_own_signal st d) by done.
  rewrite Ht. eexists. split; [reflexivity|]. by repeat split.
Qed.

Lemma add_state_string_trigger_raises_witness :
  ∃ w',
    add_state S_old (world_of Scenario.empty_context)
    = Raised AttributeError w'
    ∧ logged w' =
        ((logged (world_of Scenario.empty_context) ++
          (ErrUnknownProperty <$>
             filter (λ p, p ∉ dom (_properties Scenario.empty_context))
               (read_props S_old ++ write_props S_old)))
         ++ [ErrStringTrigger "bar:foo:changed"])%list
    ∧ _states (self w') = _states Scenario.empty_context
    ∧ _activations_per_signal_age (self w')
      = IndexDict (own_signal_entry S_old ∅).
Proof.
  apply (add_state_string_trigger_raises (world_of Scenario.empty_context)
           S_old "bar:foo:changed" ∅).
  - apply not_elem_of_empty.
  - reflexivity.
  - reflexivity.
Defined.

(** ** The signals of a property *)

Lemma foldl_materialize_lookup (fn : string) (l : list string)
    (d : gmap Signal AgeBuckets) (sig : Signal) :
  foldl (λ d signalname, <[s (fn ++ signalname)%string := ∅]> d) d l !! sig
  = if decide (sig ∈ (λ signalname, s (fn ++ signalname)%string) <$> l)
    then Some ∅ else d !! sig.
Proof.
  revert d. induction l as [|x l IH]; intros d.
  - cbn [foldl]. rewrite fmap_nil.
    destruct (decide (sig ∈ [])) as [H|H]; [by apply elem_of_nil in H | done].
  - cbn [foldl]. rewrite IH, fmap_cons.
    destruct (decide (sig ∈ (λ signalname, s (fn ++ signalname)%string) <$> l))
      as [H1|H1];
    destruct (decide (sig ∈ s (fn ++ x)%string
                        :: ((λ signalname, s (fn ++ signalname)%string) <$> l)))
      as [H2|H2]; try done.
    + exfalso. apply H2. by apply list_elem_of_further.
    + apply elem_of_cons in H2 as [->|H2]; [|done]. apply lookup_insert_eq.
    + rewrite lookup_insert_ne; [done|]. intros <-. apply H2, list_elem_of_here.
Qed.

(** X10: on a dictionary index, [add_prop] returns and logs nothing; the
    index then holds an empty entry under each of the four signals of the
    property ([:changed], [:pushed], [:popped], [:deleted] after its full
    name), every other entry of the index is as before, and the registered
    states are untouched. *)
Theorem add_prop_materializes_signals (w : World) (prop : PropertyBase)
    (d : gmap Signal AgeBuckets) :
  _activations_per_signal_age (self w) = IndexDict d →
  ∃ w' d',
    add_prop prop w = Returned tt w'
    ∧ _activations_per_signal_age (self w') = IndexDict d'
    ∧ logged w' = logged w
    ∧ _states (self w') = _states (self w)
    ∧ (∀ signalname, signalname ∈ default_property_signal_names →
         d' !! s (fullname prop ++ signalname)%string = Some ∅)
    ∧ (∀ sig,
         (∀ signalname, signalname ∈ default_property_signal_names →
            sig ≠ s (fullname prop ++ signalname)%string) →
         d' !! sig = d !! sig).
Proof.
  intros Hd. rewrite add_prop_eq, Hd. simpl.
  eexists _, _. split; [reflexivity|]. split; [reflexivity|].
  split; [done|]. split; [done|]. unfold materialized. split.
  - intros signalname Hin. rewrite foldl_materialize_lookup.
    rewrite decide_True; [done|].
    apply list_elem_of_fmap. by exists signalname.
  - intros sig Hsig. rewrite foldl_materialize_lookup.
    rewrite decide_False; [done|].
    intros (signalname & -> & Hin)%list_elem_of_fmap. by apply (Hsig signalname).
Qed.

Lemma add_prop_materializes_signals_witness :
  ∃ w' d',
    add_prop Scenario.foo_again scenario1_registered = Returned tt w'
    ∧ _activations_per_signal_age (self w') = IndexDict d'
    ∧ logged w' = logged scenario1_registered
    ∧ _states (self w') = _states (self scenario1_registered)
    ∧ (∀ signalname, signalname ∈ default_property_signal_names →
         d' !! s (fullname Scenario.foo_again ++ signalname)%string = Some ∅)
    ∧ (∀ sig,
         (∀ signalname, signalname ∈ default_property_signal_names →
            sig ≠ s (fullname Scenario.foo_again ++ signalname)%string) →
         d' !! sig = scenario1_index !! sig).
Proof.
  apply (add_prop_materializes_signals scenario1_registered Scenario.foo_again
           scenario1_index).
  reflexivity.
Defined.

(** ** What [add_state] does to the signal index *)

Lemma index_state_lookup st (d : gmap Signal AgeBuckets) x sig :
  index_state st d x !! sig
  = if decide (sig = x) then buckets_add 0 st <$> (d !! sig) else d !! sig.
Proof.
  unfold index_state. destruct (decide (sig = x)) as [->|Hne].
  - destruct (d !! x) as [b|] eqn:Hb.
    + by rewrite lookup_insert_eq.
    + by rewrite Hb.
  - destruct (d !! x) as [b|] eqn:Hb; [|done].
    by rewrite lookup_insert_ne.
Qed.

Lemma foldl_index_state_lookup st sigs (d : gmap Signal AgeBuckets) sig :
  NoDup sigs →
  foldl (index_state st) d sigs !! sig
  = if decide (sig ∈ sigs) then buckets_add 0 st <$> (d !! sig) else d !! sig.
Proof.
  intros Hnd. revert d. induction Hnd as [|x sigs Hx Hnd IH]; intros d.
  - cbn [foldl].
    destruct (decide (sig ∈ [])) as [H|H]; [by apply elem_of_nil in H | done].
  - cbn [foldl]. rewrite IH, index_state_lookup.
    destruct (decide (sig = x)) as [->|Hne].
    + rewrite (decide_False (P := x ∈ sigs)) by done.
      by rewrite (decide_True (P := x ∈ x :: sigs)) by apply list_elem_of_here.
    + destruct (decide (sig ∈ sigs)) as [Hin|Hin].
      * by rewrite (decide_True (P := sig ∈ x :: sigs))
          by (by apply list_elem_of_further).
      * rewrite (decide_False (P := sig ∈ x :: sigs)); [done|].
        by intros [?|?]%elem_of_cons.
Qed.

(** X11: on a dictionary index, [add_state] on a state that is not
    registered and whose trigger is a signal expression leaves, under
    every signal, the entry the index had once the state's own signal was
    entered empty, with the state added to age bucket 0 where the signal
    is one of the trigger signals and has an entry: other signals'
    entries, and entries that do not exist, are as they were. *)
Theorem add_state_index_effect (w : World) (st : State) (e : Constraint)
    (d : gmap Signal AgeBuckets) :
  st ∉ _states (self w) →
  triggers st = TriggerExpr e →
  _activations_per_signal_age (self w) = IndexDict d →
  ∃ w' d',
    add_state st w = Returned tt w'
    ∧ _activations_per_signal_age (self w') = IndexDict d'
    ∧ ∀ sig,
        d' !! sig =
          if decide (sig ∈ Constraint_get_all_signals e)
          then buckets_add 0 st <$> (own_signal_entry st d !! sig)
          else own_signal_entry st d !! sig.
Proof.
  intros Hst Ht Hd. eexists _, _. split; [by apply add_state_eq|].
  split; [reflexivity|]. intros sig.
  apply foldl_index_state_lookup, NoDup_remove_dups.
Qed.

Lemma add_state_index_effect_witness :
  ∃ w' d',
    add_state Scenario.S1 (world_of (set_index (IndexDict (materialized "bar:foo" ∅))
                                       Scenario.empty_context))
    = Returned tt w'
    ∧ _activations_per_signal_age (self w') = IndexDict d'
    ∧ ∀ sig,
        d' !! sig =
          if decide (sig ∈ Constraint_get_all_signals (Leaf (s "bar:foo:changed")))
          then buckets_add 0 Scenario.S1
                 <$> (own_signal_entry Scenario.S1 (materialized "bar:foo" ∅) !! sig)
          else own_signal_entry Scenario.S1 (materialized "bar:foo" ∅) !! sig.
Proof.
  apply (add_state_index_effect
           (world_of (set_index (IndexDict (materialized "bar:foo" ∅))
                        Scenario.empty_context))
           Scenario.S1 (Leaf (s "bar:foo:changed")) (materialized "bar:foo" ∅)).
  - apply not_elem_of_empty.
  - reflexivity.
  - reflexivity.
Defined.

(** X12: the entry of the state's own signal is made anew: whatever the
    index held under that signal before, after [add_state] it holds the
    state alone in age bucket 0 when the state triggers on its own signal,
    and nothing otherwise; the states other calls had entered under that
    signal are dropped from it. *)
Theorem add_state_resets_own_signal (w : World) (st : State) (e : Constraint)
    (d : gmap Signal AgeBuckets) (own : Signal) :
  st ∉ _states (self w) →
  triggers st = TriggerExpr e →
  _activations_per_signal_age (self w) = IndexDict d →
  signal st = Some own →
  ∃ w' d',
    add_state st w = Returned tt w'
    ∧ _activations_per_signal_age (self w') = IndexDict d'
    ∧ d' !! own =
        Some (if decide (own ∈ Constraint_get_all_signals e)
              then {[ 0%Z := {[ st ]} ]} else ∅).
Proof.
  intros Hst Ht Hd Hown. eexists _, _. split; [by apply add_state_eq|].
  split; [reflexivity|].
  rewrite foldl_index_state_lookup by apply NoDup_remove_dups.
  unfold own_signal_entry. rewrite Hown, lookup_insert_eq.
  case_decide; [|done]. simpl. f_equal.
  unfold buckets_add. rewrite lookup_empty. simpl.
  by rewrite (right_id_L ∅ (∪)), insert_empty.
Qed.

Lemma add_state_resets_own_signal_witness :
  ∃ w' d',
    add_state S_done scenario1_registered = Returned tt w'
    ∧ _activations_per_signal_age (self w') = IndexDict d'
    ∧ d' !! s "bar:foo:changed" =
        Some (if decide (s "bar:foo:changed"
                         ∈ Constraint_get_all_signals (Leaf (s "bar:foo:pushed")))
              then {[ 0%Z := {[ S_done ]} ]} else ∅).
Proof.
  apply (add_state_resets_own_signal scenario1_registered S_done
           (Leaf (s "bar:foo:pushed")) scenario1_index (s "bar:foo:changed")).
  - change (S_done ∉ ({[ Scenario.S1 ]} : gset State)).
    apply not_elem_of_singleton. discriminate.
  - reflexivity.
  - reflexivity.
  - reflexivity.
Defined.

(** ** Calling [add_state] again *)

Lemma bind_Returned_inv {A B} (m : Py A) (k : A → Py B) w b w2 :
  bind m k w = Returned b w2 →
  ∃ a w1, m w = Returned a w1 ∧ k a w1 = Returned b w2.
Proof.
  unfold bind. destruct (m w) as [a w1|e w1|]; [|done|done]. eauto.
Qed.

(** Whenever [add_state] returns, the state is registered. *)
Lemma add_state_returned_registered st w w1 :
  add_state st w = Returned tt w1 → st ∈ _states (self w1).
Proof.
  unfold add_state, bind at 1, get_self.
  destruct (bool_decide (st ∈ _states (self w))) eqn:Hin.
  - apply bool_decide_eq_true in Hin. by intros [= <-].
  - unfold with_lock. intros H.
    apply bind_Returned_inv in H as (? & wa & _ & H).
    apply bind_Returned_inv in H as (? & wb & _ & H).
    apply bind_Returned_inv in H as (? & wc & _ & H).
    apply bind_Returned_inv in H as (sigs & wd & _ & H).
    apply bind_Returned_inv in H as (? & we & _ & H).
    injection H as <-. simpl. apply elem_of_union_l. by apply elem_of_singleton.
Qed.

(** X13: once [add_state] has returned for a state, calling it again for
    that state logs the error of a second registration and changes
    nothing else: the states, the index and the properties stay as the
    first call left them. *)
Theorem add_state_again_only_logs (w w1 : World) (st : State) :
  add_state st w = Returned tt w1 →
  add_state st w1
  = Returned tt (with_logged (logged w1 ++ [ErrAddStateTwice (name st)]) w1).
Proof.
  intros H. apply add_state_returned_registered in H.
  unfold add_state. py_unfold. by rewrite bool_decide_eq_true_2.
Qed.

Lemma add_state_again_only_logs_witness :
  add_state Scenario.S3
    (with_logged
       [ErrUnknownProperty "baz:qux"; ErrUnknownSignal (s "baz:qux:changed")]
       (world_of (set_states ({[Scenario.S3]} ∪ ∅) Scenario.empty_context)))
  = Returned tt
      (with_logged
         [ErrUnknownProperty "baz:qux"; ErrUnknownSignal (s "baz:qux:changed");
          ErrAddStateTwice "S3"]
         (world_of (set_states ({[Scenario.S3]} ∪ ∅) Scenario.empty_context))).
Proof.
  exact (add_state_again_only_logs (world_of Scenario.empty_context) _
           Scenario.S3 add_state_scenario3).
Defined.

(** ** Removing what was added *)

(** X14: for a state without trigger signals, [rm_state] undoes
    [add_state]: when the state is not registered, its trigger expression
    has no signal, and its own signal, if it has one, is not in the
    index, adding and then removing it returns and leaves the context as
    it was; only the errors for its unregistered properties are logged. *)
Theorem add_state_then_rm_state (w : World) (st : State) (e : Constraint)
    (d : gmap Signal AgeBuckets) :
  st ∉ _states (self w) →
  triggers st = TriggerExpr e →
  Constraint_get_all_signals e = [] →
  _activations_per_signal_age (self w) = IndexDict d →
  (∀ own, signal st = Some own → d !! own = None) →
  (add_state st ;ₚ rm_state st) w
  = Returned tt
      (with_logged
         (logged w ++
          (ErrUnknownProperty <$>
             filter (λ p, p ∉ dom (_properties (self w)))
               (read_props st ++ write_props st)%list))
         w).
Proof.
  intros Hst Ht Hs Hd Hown. unfold bind at 1.
  rewrite (add_state_eq w st e d) by done. rewrite Hs. cbn [foldl].
  unfold rm_state, bind at 1, get_self. simpl.
  rewrite bool_decide_eq_true_2
    by (apply elem_of_union_l; by apply elem_of_singleton).
  simpl. unfold with_lock. rewrite Ht.
  unfold dependency_errors. rewrite Hs, filter_nil, fmap_nil, app_nil_r.
  destruct w as [[ps sts sgs ix rt fl] lg tk]. simpl in *. subst ix.
  assert (Hdiff : ({[st]} ∪ sts) ∖ {[st]} = sts).
  { apply set_eq. intros x.
    rewrite elem_of_difference, elem_of_union, !elem_of_singleton.
    split; [by intros [[->|?] ?] | intros Hx; split; [by right | by intros ->]]. }
  unfold own_signal_entry, if_signal, index_pop.
  destruct (signal st) as [own|] eqn:Hsig.
  - py_unfold. simpl. rewrite lookup_insert_eq. simpl.
    unfold with_logged, set_states, set_index. simpl. rewrite Hs. simpl.
    rewrite Hdiff, delete_insert_id by auto. reflexivity.
  - py_unfold. simpl. unfold with_logged, set_states. simpl. rewrite Hs. simpl.
    by rewrite Hdiff.
Qed.

Lemma add_state_then_rm_state_witness :
  (add_state S_idle ;ₚ rm_state S_idle) (world_of Scenario.empty_context)
  = Returned tt
      (with_logged
         (logged (world_of Scenario.empty_context) ++
          (ErrUnknownProperty <$>
             filter (λ p, p ∉ dom (_properties Scenario.empty_context))
               (read_props S_idle ++ write_props S_idle)%list))
         (world_of Scenario.empty_context)).
Proof.
  apply (add_state_then_rm_state (world_of Scenario.empty_context) S_idle
           (And []) ∅).
  - apply not_elem_of_empty.
  - reflexivity.
  - reflexivity.
  - reflexivity.
  - intros own _. apply lookup_empty.
Defined.

(** X15: [rm_state] on a registered state that has a signal of its own in
    the index and at least one trigger signal raises after it has taken
    the own signal's entry out of the index: the state stays registered,
    and the index has lost that entry. *)
Theorem rm_state_raises_after_pop (w : World) (st : State) (e : Constraint)
    (sig : Signal) (sigs : list Signal) (d : gmap Signal AgeBuckets)
    (own : Signal) :
  st ∈ _states (self w) →
  triggers st = TriggerExpr e →
  Constraint_get_all_signals e = sig :: sigs →
  _activations_per_signal_age (self w) = IndexDict d →
  signal st = Some own →
  is_Some (d !! own) →
  ∃ exn,
    rm_state st w
    = Raised exn (with_self (set_index (IndexDict (delete own d)) (self w)) w)
    ∧ exn = (if decide (sig ∈ dom (delete own d))
             then AttributeError else KeyError).
Proof.
  intros Hst Ht Hs Hd Hown [b Hb]. unfold rm_state, bind at 1, get_self.
  rewrite bool_decide_eq_true_2 by done. simpl. unfold with_lock.
  rewrite Hown, Ht. unfold if_signal, index_pop, get_all_signals. py_unfold.
  simpl. rewrite Hd, Hb. simpl. rewrite Hs. cbn [for_each].
  unfold index_getitem, buckets_remove. py_unfold. simpl.
  destruct (delete own d !! sig) as [b'|] eqn:Hb'.
  - eexists. split; [reflexivity|].
    by rewrite decide_True by (by apply elem_of_dom_2 in Hb').
  - eexists. split; [reflexivity|].
    by rewrite decide_False by (by apply not_elem_of_dom_2).
Qed.

Lemma rm_state_raises_after_pop_witness :
  ∃ exn,
    rm_state S_done
      (world_of (set_states {[ S_done ]}
                   (set_index (IndexDict (materialized "bar:foo" ∅))
                      Scenario.empty_context)))
    = Raised exn
        (with_self
           (set_index
              (IndexDict (delete (s "bar:foo:changed") (materialized "bar:foo" ∅)))
              (set_states {[ S_done ]}
                 (set_index (IndexDict (materialized "bar:foo" ∅))
                    Scenario.empty_context)))
           (world_of (set_states {[ S_done ]}
                        (set_index (IndexDict (materialized "bar:foo" ∅))
                           Scenario.empty_context))))
    ∧ exn = (if decide (s "bar:foo:pushed"
                        ∈ dom (delete (s "bar:foo:changed")
                                 (materialized "bar:foo" ∅)))
             then AttributeError else KeyError).
Proof.
  apply (rm_state_raises_after_pop
           (world_of (set_states {[ S_done ]}
                        (set_index (IndexDict (materialized "bar:foo" ∅))
                           Scenario.empty_context)))
           S_done (Leaf (s "bar:foo:pushed")) (s "bar:foo:pushed") []
           (materialized "bar:foo" ∅) (s "bar:foo:changed")).
  - change (S_done ∈ ({[ S_done ]} : gset State)). by apply elem_of_singleton.
  - reflexivity.
  - reflexivity.
  - reflexivity.
  - reflexivity.
  - exists ∅. unfold materialized. simpl.
    rewrite !lookup_insert_ne by done. apply lookup_insert_eq.
Defined.

(** ** After [shutdown] *)

(** X16: a context that was shut down cannot be run again: with the loop
    thread started, [shutdown] followed by [run] returns, and [run] only
    logs that the context was started twice; the thread stays exited and
    [:startup] is not emitted again. *)
Theorem run_after_shutdown_only_logs (fuel : nat) (w : World) :
  _run_task (self w) = Some (Some ThreadStarted) →
  (shutdown (S fuel) ;ₚ run) w
  = Returned tt (with_logged (logged w ++ [ErrStartTwice]) (stopped w)).
Proof.
  intros H. unfold bind. rewrite shutdown_started by done.
  by rewrite (run_running _ ThreadExited).
Qed.

Lemma run_after_shutdown_only_logs_witness :
  (shutdown 1 ;ₚ run) (world_of Scenario.running_context)
  = Returned tt
      (with_logged (logged (world_of Scenario.running_context) ++ [ErrStartTwice])
         (stopped (world_of Scenario.running_context))).
Proof.
  apply (run_after_shutdown_only_logs 0 (world_of Scenario.running_context)).
  reflexivity.
Defined.

(** ** Registering a module *)







